(** * l2met: the self-metrics channel, the outlet and the auth resolver

    A shallow embedding of
    - [src/metchan/metchan.go]   (package [metchan]),
    - [src/lib/l2met/outlet.rb]  (module [L2met::Outlet]),
    - the auth resolver          (package [utils], func [ParseAuth]),
    together with the properties of these programs. *)

From Stdlib Require Import ZArith List String Ascii Floats Lia.
From Stdlib Require Uint63.
From stdpp Require Import base option list gmap strings pretty.

Open Scope string_scope.
Open Scope list_scope.
Open Scope Z_scope.

(** Go's [float64] and Ruby's [Float] are both IEEE 754 binary64, which is
    what Rocq's primitive floats are. *)
Abbreviation float64 := PrimFloat.float (only parsing).

(* ===================================================================== *)
(** ** Package [time] (the part [metchan] uses)                          *)
(* ===================================================================== *)

Module GoTime.

(** A [*time.Location]: [nil] (which means UTC, and is what the zero
    [Time] carries) or the address of the local zone, [time.Local]. *)
Inductive Location := LocNil | LocLocal.

#[global] Instance Location_eq_dec : EqDecision Location.
Proof. solve_decision. Defined.

(** A [time.Time] without monotonic reading: the instant, in nanoseconds
    since January 1, year 1 (the zero time), and the location pointer. *)
Record Time := mkTime { abs_ns : Z; loc : Location }.

#[global] Instance Time_eq_dec : EqDecision Time.
Proof. solve_decision. Defined.

(** The zero value of [time.Time]. *)
Definition zero : Time := mkTime 0 LocNil.

(** [time.Now()]: the wall clock reading [wall], in the local zone. *)
Definition Now (wall : Z) : Time := mkTime wall LocLocal.

(** [t.Truncate(d)]: [t] rounded down to a multiple of [d] since the zero
    time; [t] itself when [d <= 0]. *)
Definition Truncate (t : Time) (d : Z) : Time :=
  if d <=? 0 then t else mkTime (abs_ns t - abs_ns t mod d) (loc t).

(** [t.Unix()]: seconds since January 1, 1970 UTC. *)
Definition unixToInternal : Z := (1969 * 365 + 1969 / 4 - 1969 / 100 + 1969 / 400) * 86400.
Definition Unix (t : Time) : Z := abs_ns t / 1000000000 - unixToInternal.

End GoTime.

(* ===================================================================== *)
(** ** Package [bucket] (imported by [metchan])                          *)
(* ===================================================================== *)

Module bucket.

(** Modelled from the spec: the declaration of [bucket.Id] is not among
    the sources; these are the fields [metchan] sets and reads, with the
    spec's [MetricIdentity] ({name, source, resolution, time}). *)
Record Id := mkId {
  Time : GoTime.Time;
  Resolution : Z;
  Name : string;
  Units : string;
  Source : string
}.

(** Modelled from the spec: the declaration of [bucket.Bucket] is not
    among the sources; a Bucket owns an identity and an ordered sequence
    of values, [Vals]. *)
Record Bucket := mkBucket { id : Id; Vals : list float64 }.

(** Modelled from the spec: [Count() = len(Vals)]. *)
Definition Count (b : Bucket) : Z := Z.of_nat (length (Vals b)).

(** [x] is a NaN. *)
Definition is_nan (x : float64) : Prop := Prim2SF x = SpecFloat.S754_nan.

(** The reducers on a sequence of values. *)
Definition sum_of (vs : list float64) : float64 :=
  fold_left PrimFloat.add vs 0%float.

Definition fmax (a x : float64) : float64 := if PrimFloat.ltb a x then x else a.
Definition fmin (a x : float64) : float64 := if PrimFloat.ltb x a then x else a.

Definition max_of (vs : list float64) : float64 :=
  match vs with [] => 0%float | v :: r => fold_left fmax r v end.

Definition min_of (vs : list float64) : float64 :=
  match vs with [] => 0%float | v :: r => fold_left fmin r v end.

(** Modelled from the spec: [Sum], [Max] and [Min] are missing from the
    sources; they are pure reducers over the current value sequence,
    zero-valued on the empty one. *)
Definition Sum (b : Bucket) : float64 := sum_of (Vals b).
Definition Max (b : Bucket) : float64 := max_of (Vals b).
Definition Min (b : Bucket) : float64 := min_of (Vals b).

End bucket.

(* ===================================================================== *)
(** ** Package [metchan]                                                 *)
(* ===================================================================== *)

Module metchan.

Import bucket.

(** [type libratoMetric struct] *)
Record libratoMetric := mkLibratoMetric {
  lmName : string;
  lmTime : Z;
  lmSource : string;
  lmCount : Z;
  lmSum : float64;
  lmMax : float64;
  lmMin : float64
}.

(** [type libratoGauge struct] *)
Record libratoGauge := mkLibratoGauge { Gauges : list libratoMetric }.

(** [type Channel struct]. The mutex is not modelled: every operation
    below is one critical section. [outbox] is the sequence of metrics
    sent on the channel and not yet received. *)
Record Channel := mkChannel {
  FlushInterval : Z;
  username : string;
  password : string;
  verbose : bool;
  Enabled : bool;
  Buffer : gmap string Bucket;
  outbox : list libratoMetric;
  url : string;
  source : string;
  appName : string
}.

Definition with_Buffer (c : Channel) (buf : gmap string Bucket) : Channel :=
  mkChannel (FlushInterval c) (username c) (password c) (verbose c)
            (Enabled c) buf (outbox c) (url c) (source c) (appName c).

Definition with_outbox (c : Channel) (o : list libratoMetric) : Channel :=
  mkChannel (FlushInterval c) (username c) (password c) (verbose c)
            (Enabled c) (Buffer c) o (url c) (source c) (appName c).

Definition with_Time (i : Id) (t : GoTime.Time) : Id :=
  mkId t (Resolution i) (Name i) (Units i) (Source i).

(** [key := id.Name + ":" + id.Source] *)
Definition key_of (i : Id) : string := Name i +:+ ":" +:+ Source i.

(** [func (c *Channel) add(id *bucket.Id, val float64)], with the reading
    of the wall clock, [now], as an input. A new bucket keeps the pointer
    [id]; [Measure] and [CountReq] make a new [bucket.Id] for every call, so
    no two buckets share one and the bucket holds it by value here. *)
Definition add (c : Channel) (now : Z) (i : Id) (val : float64) : Channel :=
  let key := key_of i in
  let b :=
    match Buffer c !! key with
    | Some b => b
    | None => mkBucket i [0%float]         (* make([]float64, 1, 10000) *)
    end in
  let latest := GoTime.Truncate (GoTime.Now now) (FlushInterval c) in
  let b :=
    if decide (Time (id b) = latest) then b
    else mkBucket (with_Time (id b) latest) [] in
  let b := mkBucket (id b) (Vals b ++ [val]) in
  with_Buffer c (<[key := b]> (Buffer c)).

(** The window [add] puts a value in, when the clock reads [now]. *)
Definition window (c : Channel) (now : Z) : GoTime.Time :=
  GoTime.Truncate (GoTime.Now now) (FlushInterval c).

(** A call [c.add(id, val)] made when the clock reads [call_now]. *)
Record Call := mkCall { call_now : Z; call_id : Id; call_val : float64 }.

(** A sequence of calls of [add], in order. *)
Definition run_adds (c : Channel) (calls : list Call) : Channel :=
  fold_left (fun c call => add c (call_now call) (call_id call) (call_val call))
            calls c.

(** The values that the calls with key [k] add, in order. *)
Definition vals_for (k : string) (calls : list Call) : list float64 :=
  map call_val (filter (fun call => key_of (call_id call) = k) calls).

(** What a call prints on standard output. *)
Inductive Printed :=
| PrintMeasure (src name : string) (v : float64)
| PrintOutletMetric (m : libratoMetric)
| PrintPostError (err : string).

(** [func (c *Channel) Measure(name string, v float64)] *)
Definition Measure (c : Channel) (now : Z) (name : string) (v : float64)
  : Channel * list Printed :=
  let out := if verbose c then [PrintMeasure (source c) name v] else [] in
  if negb (Enabled c) then (c, out)
  else
    let i := mkId GoTime.zero (FlushInterval c) (appName c +:+ "." +:+ name)
                  "ms" (source c) in
    (add c now i v, out).

(** [strings.Replace(s, "@", "_at_", -1)] *)
Fixpoint replace_at (s : string) : string :=
  match s with
  | EmptyString => EmptyString
  | String a r =>
      if Ascii.eqb a "@"%char then "_at_" +:+ replace_at r
      else String a (replace_at r)
  end.

(** [func (c *Channel) CountReq(user string)] *)
Definition CountReq (c : Channel) (now : Z) (user : string) : Channel :=
  let usr := replace_at user in
  let i := mkId GoTime.zero (FlushInterval c)
                (appName c +:+ "." +:+ "receiver.requests") "requests" usr in
  add c now i 1%float.

(** The [libratoMetric] that [flush] builds from a bucket. *)
Definition metric_of (b : Bucket) : libratoMetric :=
  mkLibratoMetric (Name (id b)) (GoTime.Unix (Time (id b))) (Source (id b))
                  (Count b) (Sum b) (Max b) (Min b).

(** [func (c *Channel) flush()]. Go visits the entries of a map in an
    unspecified order: [range_order] gives the order of this visit.
    Every visited bucket is sent on [outbox]; a send on a full channel
    blocks until the poster receives, which is not modelled. *)
Definition flush (range_order : gmap string Bucket -> list (string * Bucket))
                 (c : Channel) : Channel :=
  fold_left (fun c kb => with_outbox c (outbox c ++ [metric_of (snd kb)]))
            (range_order (Buffer c)) c.

(** A Go [error], by its message. *)
Definition error := string.

Inductive result (A : Type) :=
| Ok (a : A)
| Err (e : error).
Arguments Ok {A} a.
Arguments Err {A} e.

(** A [*http.Request], as [post] builds it. *)
Record Request := mkRequest {
  Method : string;
  URL : string;
  Body : string;
  Header : list (string * string);
  BasicAuth : option (string * string)
}.

(** A [*http.Response]: the status code and what [ioutil.ReadAll] makes of
    the body ([None]: the read fails). *)
Record Response := mkResponse {
  StatusCode : Z;
  ReadAll : option string
}.

(** The libraries and the network [post] talks to: [json.Marshal], the
    check of the URL in [http.NewRequest], and [http.DefaultClient.Do],
    which gives an error or a response together with what is left unread
    of the request's body buffer. *)
Record World := mkWorld {
  Marshal : libratoGauge -> result string;
  ParseURL : string -> option error;
  Do : Request -> result (Response * string)
}.

(** [http.NewRequest(method, urlStr, body)] *)
Definition NewRequest (W : World) (method urlStr body : string) : result Request :=
  match ParseURL W urlStr with
  | Some e => Err e
  | None => Ok (mkRequest method urlStr body [] None)
  end.

Definition Header_Add (r : Request) (k v : string) : Request :=
  mkRequest (Method r) (URL r) (Body r) (Header r ++ [(k, v)]) (BasicAuth r).

Definition SetBasicAuth (r : Request) (u p : string) : Request :=
  mkRequest (Method r) (URL r) (Body r) (Header r) (Some (u, p)).

(** The request [post] sends for the marshalled batch [j]. *)
Definition post_request (c : Channel) (req : Request) : Request :=
  SetBasicAuth
    (Header_Add (Header_Add req "Content-Type" "application/json")
                "User-Agent" "l2met-metchan/0")
    (username c) (password c).

(** [func (c *Channel) post(m *libratoMetric) error]; [None] is [nil]. *)
Definition post (W : World) (c : Channel) (m : libratoMetric) : option error :=
  let p := mkLibratoGauge [m] in
  match Marshal W p with
  | Err e => Some e
  | Ok j =>
      match NewRequest W "POST" (url c) j with
      | Err e => Some e
      | Ok req =>
          match Do W (post_request c req) with
          | Err e => Some e
          | Ok (resp, body) =>
              if decide (StatusCode resp ÷ 100 ≠ 2) then
                match ReadAll resp with
                | None => Some ("code=" +:+ pretty (StatusCode resp))
                | Some s =>
                    Some ("code=" +:+ pretty (StatusCode resp) +:+
                          " resp=body=" +:+ s +:+ " req-body=" +:+ body)
                end
              else None
          end
      end
  end.

(** One turn of the loop of [func (c *Channel) outlet()] on the received
    metric [met]. *)
Definition outlet_turn (W : World) (c : Channel) (met : libratoMetric)
  : list Printed :=
  PrintOutletMetric met ::
  match post W c met with
  | Some err => [PrintPostError err]
  | None => []
  end.

(** [func (c *Channel) outlet()], on the metrics that are in [outbox]:
    each is received once, in order, and the channel is left empty. *)
Fixpoint outlet_loop (W : World) (c : Channel) (mets : list libratoMetric)
  : list Printed :=
  match mets with
  | [] => []
  | met :: rest => outlet_turn W c met ++ outlet_loop W c rest
  end.

Definition outlet (W : World) (c : Channel) : Channel * list Printed :=
  (with_outbox c [], outlet_loop W c (outbox c)).

(** The metrics a run of the poster loop received, in order. *)
Definition received (out : list Printed) : list libratoMetric :=
  omap (fun p => match p with PrintOutletMetric m => Some m | _ => None end) out.

(** Every bucket sits under the key of its identity, holds a value, and
    carries a window of the channel as its time. *)
Definition well_kept (c : Channel) : Prop :=
  forall k b, Buffer c !! k = Some b ->
    key_of (id b) = k /\ Vals b <> [] /\ exists now, Time (id b) = window c now.

(** Two readings of the clock fall in one window of length [d]; a [d] that
    is not positive makes every reading a window of its own. *)
Definition same_window (d n1 n2 : Z) : bool :=
  if 0 <? d then n1 / d =? n2 / d else n1 =? n2.

(** The part of an identity that [add] never writes. *)
Definition same_names (i j : Id) : Prop :=
  Name i = Name j /\ Source i = Source j /\ Units i = Units j /\
  Resolution i = Resolution j.

(** One thing that happens to a channel: a call of [Measure] or of
    [CountReq] when the clock reads [now], a tick of [scheduleFlush], which
    calls [flush] (the map is visited in [range_order]), or the poster
    taking what is in [outbox]. *)
Inductive Op :=
| OpMeasure (now : Z) (name : string) (v : float64)
| OpCountReq (now : Z) (user : string)
| OpFlush (range_order : gmap string Bucket -> list (string * Bucket))
| OpOutlet (W : World).

Definition step (c : Channel) (op : Op) : Channel :=
  match op with
  | OpMeasure now name v => fst (Measure c now name v)
  | OpCountReq now user => CountReq c now user
  | OpFlush range_order => flush range_order c
  | OpOutlet W => fst (outlet W c)
  end.

(** The visit of a [flush] goes through every entry of the map once. *)
Definition visits_all (op : Op) : Prop :=
  match op with
  | OpFlush range_order => forall bs, range_order bs ≡ₚ map_to_list bs
  | _ => True
  end.

(** A metric sent for a bucket that holds a value, at a window of [c]. *)
Definition sound_metric (c : Channel) (m : libratoMetric) : Prop :=
  1 <= lmCount m /\ exists now, lmTime m = GoTime.Unix (window c now).

(** A history of a channel. *)
Definition run (c : Channel) (ops : list Op) : Channel := fold_left step ops c.

(** The identity [Measure] builds for [name]. *)
Definition measure_id (c : Channel) (name : string) : Id :=
  mkId GoTime.zero (FlushInterval c) (appName c +:+ "." +:+ name) "ms" (source c).

(** [Measure] called for [name] with each of the readings and values of
    [obs], in order. *)
Definition measure_all (c : Channel) (name : string) (obs : list (Z * float64))
    : Channel :=
  fold_left (fun c o => fst (Measure c (fst o) name (snd o))) obs c.

End metchan.

(* ===================================================================== *)
(** ** Strings: splitting on a one-byte separator                        *)
(* ===================================================================== *)

Module Str.

(** The fields of [s] between the occurrences of [sep], empty fields and
    the last one included: Go's [strings.Split(s, sep)] for a one-byte
    [sep]. *)
Fixpoint split (sep : ascii) (s : string) : list string :=
  match s with
  | EmptyString => [EmptyString]
  | String a r =>
      if Ascii.eqb a sep then EmptyString :: split sep r
      else match split sep r with
           | [] => [String a EmptyString]
           | f :: fs => String a f :: fs
           end
  end.

(** [s] cut at the first [sep]: Go's [strings.SplitN(s, sep, 2)] for a
    one-byte [sep]. *)
Fixpoint split2 (sep : ascii) (s : string) : list string :=
  match s with
  | EmptyString => [EmptyString]
  | String a r =>
      if Ascii.eqb a sep then [EmptyString; r]
      else match split2 sep r with
           | [] => [String a EmptyString]
           | f :: fs => String a f :: fs
           end
  end.

(** [sep] occurs in [s]. *)
Fixpoint has_char (sep : ascii) (s : string) : bool :=
  match s with
  | EmptyString => false
  | String a r => Ascii.eqb a sep || has_char sep r
  end.

(** The list without its trailing empty strings. *)
Fixpoint strip_trailing_empty (l : list string) : list string :=
  match l with
  | [] => []
  | x :: r =>
      match strip_trailing_empty r with
      | [] => if decide (x = EmptyString) then [] else [x]
      | r' => x :: r'
      end
  end.

(** Ruby's [s.split(sep)] for a one-byte [sep]: trailing empty fields are
    dropped. *)
Definition ruby_split (sep : ascii) (s : string) : list string :=
  strip_trailing_empty (split sep s).

End Str.

(* ===================================================================== *)
(** ** Module [L2met::Outlet]                                            *)
(* ===================================================================== *)

Module Outlet.

(** A Ruby exception ([StandardError] and below: what [rescue => e]
    catches). *)
Inductive exn :=
| ArgumentError
| TypeError
| ZeroDivisionError
| NoMethodError
| StandardError (msg : string).

#[global] Instance exn_eq_dec : EqDecision exn.
Proof. solve_decision. Defined.

(** A computation that returns or raises. *)
Inductive res (A : Type) :=
| Ret (a : A)
| Raise (e : exn).
Arguments Ret {A} a.
Arguments Raise {A} e.

#[global] Instance res_bind : MBind res := fun A B k m =>
  match m with
  | Ret a => k a
  | Raise e => Raise e
  end.

(** [l.map { |x| f x }] where the block may raise: left to right, stopping
    at the first exception. *)
Fixpoint mapR {A B} (f : A -> res B) (l : list A) : res (list B) :=
  match l with
  | [] => Ret []
  | x :: r => y ← f x; ys ← mapR f r; Ret (y :: ys)
  end.

(** [l.select { |x| p x }] where the block may raise. *)
Fixpoint selectR {A} (p : A -> res bool) (l : list A) : res (list A) :=
  match l with
  | [] => Ret []
  | x :: r =>
      b ← p x;
      ys ← selectR p r;
      Ret (if b : bool then x :: ys else ys)
  end.

(** [l.group_by { |x| f x }]: a Hash in insertion order, so the groups are
    in the order in which their keys first occur, and the elements of a
    group in the order of [l]. *)
Fixpoint group_insert {K A} `{EqDecision K} (k : K) (x : A)
    (gs : list (K * list A)) : list (K * list A) :=
  match gs with
  | [] => [(k, [x])]
  | (k', xs) :: r =>
      if decide (k = k') then (k', xs ++ [x]) :: r
      else (k', xs) :: group_insert k x r
  end.

Definition group_by {K A} `{EqDecision K} (f : A -> K) (l : list A)
    : list (K * list A) :=
  fold_left (fun gs x => group_insert (f x) x gs) l [].

(** The groups after the elements of [l] are added to the groups [gs]. *)
Definition group_into {K A} `{EqDecision K} (f : A -> K)
    (gs : list (K * list A)) (l : list A) : list (K * list A) :=
  fold_left (fun gs x => group_insert (f x) x gs) l gs.

(** An entry of the Hash whose key is not [k]. *)
Definition keep_key {K A} `{EqDecision K} (k : K) (g : K * list A) : bool :=
  bool_decide (fst g <> k).

(** [h[k] || []] on the Hash of groups. *)
Definition group_of {K A} `{EqDecision K} (k : K) (gs : list (K * list A))
    : list A :=
  match List.find (fun g => bool_decide (fst g = k)) gs with
  | Some g => snd g
  | None => []
  end.

(** A Ruby Hash from strings to strings: its entries in the order of
    insertion, one for a key. *)
Record Hash := mkHash { entries : list (string * string) }.

#[global] Instance Hash_eq_dec : EqDecision Hash.
Proof. solve_decision. Defined.

Fixpoint assoc_get (k : string) (l : list (string * string)) : option string :=
  match l with
  | [] => None
  | (k', v) :: r => if decide (k = k') then Some v else assoc_get k r
  end.

Fixpoint assoc_set (k v : string) (l : list (string * string))
    : list (string * string) :=
  match l with
  | [] => [(k, v)]
  | (k', v') :: r =>
      if decide (k = k') then (k', v) :: r else (k', v') :: assoc_set k v r
  end.

Fixpoint assoc_del (k : string) (l : list (string * string))
    : list (string * string) :=
  match l with
  | [] => []
  | (k', v') :: r =>
      if decide (k = k') then assoc_del k r else (k', v') :: assoc_del k r
  end.

(** [h[k]] ([None] is [nil]), [h[k] = v], [h.delete(k)] and [{}]. *)
#[global] Instance Hash_lookup : Lookup string string Hash :=
  fun k h => assoc_get k (entries h).
#[global] Instance Hash_insert : Insert string string Hash :=
  fun k v h => mkHash (assoc_set k v (entries h)).
#[global] Instance Hash_delete : Delete string Hash :=
  fun k h => mkHash (assoc_del k (entries h)).
#[global] Instance Hash_empty : Empty Hash := mkHash [].

(** A record of the sample store, as [redis.hgetall] gives it. A field that
    is absent and a field that is [nil] read the same ([h[k]] is [nil]),
    and reading is all the outlet does. *)
Abbreviation Metric := Hash.

(** [metric['mkey']] *)
Abbreviation mkey := (fun m : Metric => m !! "mkey").

(** [h.merge(k => v)], where [v] may be [nil]. *)
Definition merge1 (h : Metric) (k : string) (v : option string) : Metric :=
  match v with
  | Some v => <[k := v]> h
  | None => delete k h
  end.

(** A [Librato::Metrics::Client] after [authenticate(email, token)]. *)
Record Client := mkClient { email : option string; token : option string }.

(** One entry [{name => opts.merge(value: val)}] of the outbound batch. *)
Record Gauge := mkGauge {
  gname : string;
  gsource : option string;
  gtype : string;
  display_units_long : option string;
  measure_time : Z;
  gvalue : float64
}.

(** Modelled from the spec: [Utils.count] and [Utils.measure] (l2met/utils)
    are not among the sources. [Utils.count(n, name)] records the internal
    self-metric [name] with the count [n]; [Utils.measure(name) { block }]
    times its block and returns what the block returns, which is how
    [snapshot] chains on it.

    What a snapshot does that can be seen from outside. *)
Inductive Event :=
| Counted (n : Z) (name : string)                   (* Utils.count(n, name) *)
| Submitted (c : Client) (batch : list Gauge)       (* q.submit returned *)
| ErrorLogged (consumer : option string) (e : exn). (* log(at: 'error', consumer:, error:) *)

(** The collaborators of the outlet: the sample store ([redis]), the
    consumer directory ([DB]), the submission of a queue, Ruby's
    [Kernel#Float] and [Kernel#Integer] on a String ([None]: the string is
    not a number, [ArgumentError]), the index [Array#sample] draws, and
    [Stats.aggregate] of [l2met/stats]. *)
Record Env := mkEnv {
  redis_keys : string -> res (list string);
  redis_hgetall : string -> res Metric;
  DB_consumers_at : option string -> res Hash;
  q_submit : Client -> list Gauge -> res unit;
  Float : string -> option float64;
  Integer : string -> option Z;
  sample : list Metric -> nat;
  Stats_aggregate : list Metric -> res (list (string * float64))
}.

(** The submissions, the logged errors and the counted errors among the
    events of a snapshot. *)
Definition is_submission (ev : Event) : bool :=
  match ev with Submitted _ _ => true | _ => false end.

Definition is_logged_error (ev : Event) : bool :=
  match ev with ErrorLogged _ _ => true | _ => false end.

Definition is_counted_error (ev : Event) : bool :=
  match ev with
  | Counted n name => String.eqb name "outlet.metric-post-error" && (n =? 1)
  | _ => false
  end.

Definition is_items_count (ev : Event) : bool :=
  match ev with
  | Counted n name => String.eqb name "outlet.librato.metrics"
  | _ => false
  end.

Definition count_events (p : Event -> bool) (evs : list Event) : nat :=
  length (List.filter p evs).

Section WithEnv.

Variable E : Env.

(** [Float(x)]: [TypeError] on [nil]. *)
Definition Float_of (x : option string) : res float64 :=
  match x with
  | None => Raise TypeError
  | Some s => match Float E s with Some v => Ret v | None => Raise ArgumentError end
  end.

(** [Integer(x)]: [TypeError] on [nil]. *)
Definition Integer_of (x : option string) : res Z :=
  match x with
  | None => Raise TypeError
  | Some s => match Integer E s with Some v => Ret v | None => Raise ArgumentError end
  end.

(** [a % b] on Integers: the sign of the result is that of [b]. *)
Definition modulo (a b : Z) : res Z :=
  if decide (b = 0) then Raise ZeroDivisionError else Ret (a mod b).

(** [key.split(':')[0]] *)
Definition mkey_of (key : string) : option string :=
  head (Str.ruby_split ":" key).

(** The block of [select] in [snapshot]:
    [Integer(key.split(':')[0]) % max == partition]. *)
Definition in_partition (partition max : Z) (key : string) : res bool :=
  n ← Integer_of (mkey_of key);
  r ← modulo n max;
  Ret (bool_decide (r = partition)).

(** The keys [snapshot] retains, of the keys the scan returned. *)
Definition retained_keys (partition max : Z) (keys : list string)
    : res (list string) :=
  selectR (in_partition partition max) keys.

(** The number [in_partition] reads at the head of a key that has one. *)
Definition prefix_int (key : string) : Z :=
  match Integer_of (mkey_of key) with Ret n => n | Raise _ => 0 end.

(** The block of [map] in [snapshot]. *)
Definition fetch (key : string) : res Metric :=
  let mkey := mkey_of key in
  h ← redis_hgetall E key;
  Ret (merge1 h "mkey" mkey).

(** [[a, b].join(".")], where [a] may be [nil]. *)
Definition join_dot (a : option string) (b : string) : string :=
  default "" a +:+ "." +:+ b.

(** What the block of [map] in [aggregate] returns: a Hash, an Array of
    Hashes, or [nil]. *)
Inductive blockval :=
| One (g : Gauge)
| Many (gs : list Gauge)
| Nil.

(** What is left of one value of the block after [.flatten.compact]. *)
Definition outputs_of_block (b : blockval) : list Gauge :=
  match b with One g => [g] | Many gs => gs | Nil => [] end.

(** [.flatten.compact] *)
Definition flatten_compact (l : list blockval) : list Gauge :=
  flat_map outputs_of_block l.

(** [s["type"] === t] *)
Definition type_is (s : Metric) (t : string) : bool :=
  bool_decide (s !! "type" = Some t).

(** [metrics.sample], for a group that is not empty ([m0] is its head). *)
Definition representative (metrics : list Metric) (m0 : Metric) : Metric :=
  nth (sample E metrics mod length metrics)%nat metrics m0.

(** The block of [map] in [aggregate], on the samples of one [mkey]. The
    call of [log] is not modelled. *)
Definition aggregate_group (bucket : Z) (metrics : list Metric) : res blockval :=
  match metrics with
  | [] => Raise NoMethodError                        (* [].sample is nil *)
  | m0 :: rest =>
      let s := representative metrics m0 in
      let opts name val :=
        mkGauge name (s !! "source") "gauge" (s !! "label") bucket val in
      if type_is s "counter" then
        v0 ← Float_of (m0 !! "value");
        vs ← mapR (fun m => Float_of (m !! "value")) rest;
        let val := fold_left PrimFloat.add vs v0 in
        Ret (One (opts (join_dot (s !! "name") "count") val))
      else if type_is s "last" then
        val ← Float_of (List.last metrics m0 !! "value");
        Ret (One (opts (join_dot (s !! "name") "last") val))
      else if type_is s "list" then
        stats ← Stats_aggregate E metrics;
        Ret (Many (map (fun sv => opts (join_dot (s !! "name") (fst sv)) (snd sv))
                       stats))
      else Ret Nil
  end.

(** [.map { block }.flatten.compact] on the Hash of groups [gs]. *)
Definition outputs_of (bucket : Z) (gs : list (option string * list Metric))
    : res (list Gauge) :=
  bs ← mapR (fun g => aggregate_group bucket (snd g)) gs;
  Ret (flatten_compact bs).

(** [def aggregate(bucket, metrics)] *)
Definition aggregate (bucket : Z) (metrics : list Metric) : res (list Gauge) :=
  outputs_of bucket (group_by mkey metrics).

(** The output for a counter group with representative [s] and values
    [v0 :: vs], the outputs for a list group with statistics [stats]. *)
Definition counter_gauge (bucket : Z) (s : Metric) (v0 : float64) (vs : list float64)
    : Gauge :=
  mkGauge (default "" (s !! "name") +:+ ".count") (s !! "source") "gauge"
          (s !! "label") bucket (fold_left PrimFloat.add vs v0).

Definition stat_gauge (bucket : Z) (s : Metric) (sv : string * float64) : Gauge :=
  mkGauge (default "" (s !! "name") +:+ "." +:+ fst sv) (s !! "source") "gauge"
          (s !! "label") bucket (snd sv).

(** [def librato_client(consumer_id)] *)
Definition librato_client (consumer_id : option string) : res Client :=
  consumer ← DB_consumers_at E consumer_id;
  Ret (mkClient (consumer !! "email") (consumer !! "token")).

(** The [rescue => e] clause of the block of [each] in [snapshot]. *)
Definition rescue (consumer_id : option string) (e : exn) : list Event :=
  [Counted 1 "outlet.metric-post-error"; ErrorLogged consumer_id e].

(** The block of [each] in [snapshot], on one consumer and its records. *)
Definition process_group (bucket : Z) (g : option string * list Metric)
    : list Event :=
  let consumer_id := fst g in
  match librato_client consumer_id with
  | Raise e => rescue consumer_id e
  | Ret client =>
      match aggregate bucket (snd g) with
      | Raise e => rescue consumer_id e
      | Ret q =>
          if (0 <? Z.of_nat (length q)) then
            Counted (Z.of_nat (length q)) "outlet.librato.metrics" ::
            match q_submit E client q with
            | Raise e => rescue consumer_id e
            | Ret _ => [Submitted client q]
            end
          else []
      end
  end.

(** The groups of records, by consumer, that [snapshot] works on. *)
Definition tenant_groups (partition max bucket : Z)
    : res (list (option string * list Metric)) :=
  keys ← redis_keys E ("*:" +:+ pretty bucket +:+ ":*");
  kept ← retained_keys partition max keys;
  records ← mapR fetch kept;
  Ret (group_by (fun m : Metric => m !! "consumer") records).

(** How the block of [each] ends on a group: it raises into the [rescue]
    clause, it submits a batch, or it has nothing to submit. *)
Definition group_outcome (bucket : Z) (g : option string * list Metric)
    : res (option (Client * list Gauge)) :=
  client ← librato_client (fst g);
  q ← aggregate bucket (snd g);
  if (0 <? Z.of_nat (length q)) then
    _ ← q_submit E client q; Ret (Some (client, q))
  else Ret None.

Definition group_fails (bucket : Z) (g : option string * list Metric) : bool :=
  match group_outcome bucket g with Raise _ => true | Ret _ => false end.

Definition group_submits (bucket : Z) (g : option string * list Metric) : bool :=
  match group_outcome bucket g with Ret (Some _) => true | _ => false end.

Definition group_idle (bucket : Z) (g : option string * list Metric) : bool :=
  match group_outcome bucket g with Ret None => true | _ => false end.

(** The block of [each] hands a batch to [q.submit], which raises. *)
Definition group_submit_fails (bucket : Z) (g : option string * list Metric)
    : bool :=
  match librato_client (fst g), aggregate bucket (snd g) with
  | Ret client, Ret q =>
      (0 <? Z.of_nat (length q)) &&
      match q_submit E client q with Raise _ => true | Ret _ => false end
  | _, _ => false
  end.

(** [def snapshot(partition, max, bucket)] *)
Definition snapshot (partition max bucket : Z) : res (list Event) :=
  groups ← tenant_groups partition max bucket;
  Ret (flat_map (process_group bucket) groups).

End WithEnv.

End Outlet.

(* ===================================================================== *)
(** ** Package [encoding/base64]: [StdEncoding.DecodeString]              *)
(* ===================================================================== *)

Module base64.

(** [CorruptInputError]: the offset of the offending input byte. *)
Definition CorruptInputError := Z.

(** [decodeMap] of the standard alphabet: the 6 bits a byte stands for. *)
Definition decodeMap (c : ascii) : option Z :=
  let n := Z.of_N (N_of_ascii c) in
  if (65 <=? n) && (n <=? 90) then Some (n - 65)            (* A-Z *)
  else if (97 <=? n) && (n <=? 122) then Some (n - 71)      (* a-z *)
  else if (48 <=? n) && (n <=? 57) then Some (n + 4)        (* 0-9 *)
  else if n =? 43 then Some 62                              (* + *)
  else if n =? 47 then Some 63                              (* / *)
  else None.

Definition is_newline (c : ascii) : bool :=
  let n := N_of_ascii c in (n =? 10)%N || (n =? 13)%N.

Definition is_pad (c : ascii) : bool := (N_of_ascii c =? 61)%N.

Definition byte_of (v : Z) : ascii := ascii_of_N (Z.to_N (v mod 256)).

(** The bytes a quantum of [dlen] 6-bit digits [q] stands for: [dlen - 1]
    bytes of [d0<<18 | d1<<12 | d2<<6 | d3]. *)
Definition quantum_bytes (q : list Z) : string :=
  let d i := nth i q 0 in
  let val := Z.lor (Z.lor (Z.shiftl (d 0%nat) 18) (Z.shiftl (d 1%nat) 12))
                   (Z.lor (Z.shiftl (d 2%nat) 6) (d 3%nat)) in
  let b0 := byte_of (Z.shiftr val 16) in
  let b1 := byte_of (Z.shiftr val 8) in
  let b2 := byte_of val in
  match length q with
  | 4%nat => String b0 (String b1 (String b2 EmptyString))
  | 3%nat => String b0 (String b1 EmptyString)
  | 2%nat => String b0 EmptyString
  | _ => EmptyString
  end.

(** The input after its leading newlines, and its offset. *)
Fixpoint skip_newlines (src : string) (si : Z) : string * Z :=
  match src with
  | EmptyString => (src, si)
  | String c r => if is_newline c then skip_newlines r (si + 1) else (src, si)
  end.

(** After the padding of a quantum [q]: newlines are skipped and anything
    else is trailing garbage, reported with the bytes of [q] decoded. *)
Definition after_padding (q : list Z) (src : string) (si : Z)
    : string * option CorruptInputError :=
  match skip_newlines src si with
  | (EmptyString, _) => (quantum_bytes q, None)
  | (String _ _, si') => (quantum_bytes q, Some si')
  end.

(** [Decode] from offset [si], with the digits [q] of the current quantum
    read so far: the decoded bytes, and the error if the input is
    corrupt. *)
Fixpoint decode (src : string) (si : Z) (q : list Z)
    : string * option CorruptInputError :=
  match src with
  | EmptyString =>
      match q with
      | [] => (EmptyString, None)
      | _ => (EmptyString, Some (si - Z.of_nat (length q)))
      end
  | String c r =>
      match decodeMap c with
      | Some v =>
          let q' := q ++ [v] in
          if (length q' =? 4)%nat then
            let (out, err) := decode r (si + 1) [] in
            (quantum_bytes q' +:+ out, err)
          else decode r (si + 1) q'
      | None =>
          if is_newline c then decode r (si + 1) q
          else if is_pad c then
            match length q with
            | 0%nat | 1%nat => (EmptyString, Some si)
            | 2%nat =>
                match skip_newlines r (si + 1) with
                | (EmptyString, si') => (EmptyString, Some si')
                | (String c2 r2, si') =>
                    if is_pad c2 then after_padding q r2 (si' + 1)
                    else (EmptyString, Some (si' - 1))
                end
            | _ => after_padding q r (si + 1)
            end
          else (EmptyString, Some si)
      end
  end.

(** [base64.StdEncoding.DecodeString(s)] *)
Definition DecodeString (s : string) : string * option CorruptInputError :=
  decode s 0 [].

(** The number of a byte. *)
Definition code (a : ascii) : Z := Z.of_N (N_of_ascii a).

(** The standard alphabet: the byte that stands for 6 bits. *)
Definition encodeStd (v : Z) : ascii :=
  ascii_of_N (Z.to_N (if v <? 26 then 65 + v
                      else if v <? 52 then 71 + v
                      else if v <? 62 then v - 4
                      else if v =? 62 then 43 else 47)).

(** [encode[val>>sh&0x3F]] *)
Definition digit (val sh : Z) : ascii := encodeStd (Z.land (Z.shiftr val sh) 63).

(** [base64.StdEncoding.EncodeToString(src)], which is what a client
    applies to its credentials: three bytes give four digits, and what
    remains gives two or three digits and padding. *)
Fixpoint EncodeToString (src : string) : string :=
  match src with
  | EmptyString => EmptyString
  | String a EmptyString =>
      let val := Z.shiftl (code a) 16 in
      String (digit val 18) (String (digit val 12) "==")
  | String a (String b EmptyString) =>
      let val := Z.lor (Z.shiftl (code a) 16) (Z.shiftl (code b) 8) in
      String (digit val 18) (String (digit val 12) (String (digit val 6) "="))
  | String a (String b (String c r)) =>
      let val := Z.lor (Z.lor (Z.shiftl (code a) 16) (Z.shiftl (code b) 8)) (code c) in
      String (digit val 18) (String (digit val 12) (String (digit val 6)
        (String (digit val 0) (EncodeToString r))))
  end.

(** A byte that is no digit of the alphabet, no padding and no newline,
    and a string that holds one. *)
Definition foreign (c : ascii) : bool :=
  match decodeMap c with
  | Some _ => false
  | None => negb (is_newline c) && negb (is_pad c)
  end.

Fixpoint has_foreign (s : string) : bool :=
  match s with
  | EmptyString => false
  | String c r => foreign c || has_foreign r
  end.

End base64.

(* ===================================================================== *)
(** ** Package [utils]: [ParseAuth]                                      *)
(* ===================================================================== *)

Module utils.

(** A Go [error]: one made by [errors.New], or the decoder's. *)
Inductive error :=
| errorString (msg : string)
| CorruptInput (offset : base64.CorruptInputError).

#[global] Instance error_eq_dec : EqDecision error.
Proof. solve_decision. Defined.

(** What a call of [ParseAuth] does: it returns [(user, pass, err)], where
    [None] is the [nil] error, or it panics. *)
Inductive outcome :=
| Return (user pass : string) (err : option error)
| Panic (msg : string).

(** The part of [*http.Request] that [ParseAuth] reads: [r.Header]. *)
Record Request := mkRequest { Header : gmap string (list string) }.

Section WithKeys.

(** [fernet.VerifyAndDecrypt(tok, OneHundredYears, keys)], for the keys of
    this process: the message of a token that verifies under one of them,
    or [None] ([nil]). *)
Variable VerifyAndDecrypt : string -> option string.

(** The test of step 4 on the fields of the decoded payload, where both
    fields are there: [parts[0] == "l2met" && len(parts[1]) > 0]. *)
Definition sentinel (parts : list string) : bool :=
  match parts with
  | part0 :: part1 :: _ =>
      bool_decide (part0 = "l2met") && (0 <? Z.of_nat (String.length part1))
  | _ => false
  end.

(** [l[i]] where [i] is in range, the empty string elsewhere. *)
Definition field (i : nat) (l : list string) : string := nth i l "".

(** Step 6, the inline credentials in [parts[0]]. *)
Definition inline_creds (part0 : string) : outcome :=
  if (0 <? Z.of_nat (String.length part0)) then
    let (decodedPart, err) := base64.DecodeString part0 in
    match Str.split ":" decodedPart with
    | [] => Panic "index out of range"
    | user :: rest =>
        let pass := match rest with p :: _ => p | [] => "" end in
        Return user pass (CorruptInput <$> err)
    end
  else Return "" "" None.

(** Step 5, the signed token, and then step 6. *)
Definition signed_or_inline (userPass part0 : string) : outcome :=
  match VerifyAndDecrypt userPass with
  | Some s =>
      match Str.split ":" s with
      | user :: pass :: _ => Return user pass None
      | _ => Panic "index out of range"
      end
  | None => inline_creds part0
  end.

(** [func ParseAuth(r *http.Request) (user, pass string, err error)] *)
Definition ParseAuth (r : Request) : outcome :=
  match Header r !! "Authorization" with
  | None => Return "" "" (Some (errorString "Authorization header not set."))
  | Some [] => Panic "index out of range"
  | Some (header0 :: _) =>
      match Str.split2 " " header0 with
      | [_; auth1] =>
          match base64.DecodeString auth1 with
          | (_, Some _) => Return "" "" (Some (errorString "Malformed encoding."))
          | (userPass, None) =>
              match Str.split ":" userPass with
              | [] => Panic "index out of range"
              | part0 :: rest =>
                  if decide (part0 = "l2met") then
                    match rest with
                    | [] => Panic "index out of range"
                    | part1 :: _ =>
                        if (0 <? Z.of_nat (String.length part1)) then
                          Return part0 part1 None
                        else signed_or_inline userPass part0
                    end
                  else signed_or_inline userPass part0
              end
          end
      | _ => Return "" "" (Some (errorString "Malformed header."))
      end
  end.

(** The outcome of steps 4 to 6 when no second field is read that is not
    there. *)
Definition resolved (userPass : string) : outcome :=
  let parts := Str.split ":" userPass in
  if sentinel parts then Return (field 0 parts) (field 1 parts) None
  else
    match VerifyAndDecrypt userPass with
    | Some s => Return (field 0 (Str.split ":" s)) (field 1 (Str.split ":" s)) None
    | None =>
        if decide (field 0 parts = "") then Return "" "" None
        else
          let d := base64.DecodeString (field 0 parts) in
          Return (field 0 (Str.split ":" (fst d))) (field 1 (Str.split ":" (fst d)))
                 (CorruptInput <$> snd d)
    end.

End WithKeys.

(** A process without keys: no token verifies. *)
Definition no_keys (tok : string) : option string := None.

(** A request with the one header [Authorization: v]. *)
Definition request_with (v : string) : Request :=
  mkRequest {[ "Authorization" := [v] ]}.

End utils.

(* ===================================================================== *)
(** ** Example runs of [metchan]                                         *)
(* ===================================================================== *)

Module MetchanExamples.

Import bucket metchan.

Definition ex_chan : Channel :=
  mkChannel 60000000000 "user" "secret" false true ∅ []
            "https://metrics.example.com/v1/metrics" "host1" "l2met".

Definition ex_id : Id := mkId GoTime.zero 60000000000 "l2met.x" "ms" "host1".
Definition ex_id_other : Id := mkId GoTime.zero 60000000000 "l2met.y" "ms" "host1".

(** Three calls on one key and one on another, all within one minute. *)
Definition ex_first : Call := mkCall 63000000000000000000 ex_id 1%float.
Definition ex_calls : list Call :=
  [ mkCall 63000000001000000000 ex_id 2%float;
    mkCall 63000000002000000000 ex_id_other 7%float;
    mkCall 63000000003000000000 ex_id 3%float ].

(** The bucket of the other key after these calls. *)
Definition ex_bucket_y : Bucket :=
  mkBucket (with_Time ex_id_other (window ex_chan 63000000002000000000)) [7%float].

Definition ex_metric : libratoMetric :=
  mkLibratoMetric "l2met.x" 1000 "host1" 3 6%float 3%float 1%float.

Definition ex_marshal (g : libratoGauge) : result string :=
  Ok ("gauges:" +:+ pretty (length (Gauges g))).

(** A world where the API cannot be reached, and one where it answers
    with the status [code]. *)
Definition ex_world_down : World :=
  mkWorld ex_marshal (fun _ => None) (fun _ => Err "connection refused").

Definition ex_world_status (code : Z) : World :=
  mkWorld ex_marshal (fun _ => None)
          (fun _ => Ok (mkResponse code (Some "no such metric"), "")).

(** A channel without endpoint, which prints what it is given. *)
Definition ex_chan_off : Channel :=
  mkChannel 60000000000 "" "" true false ∅ [] "" "host1" "l2met".

(** A request of the user [host1], a measure that has the key of that
    request count, a measure of its own, and a flush. *)
Definition ex_ops : list Op :=
  [ OpCountReq 63000000000000000000 "host1";
    OpMeasure 63000000001000000000 "receiver.requests" 250%float;
    OpMeasure 63000000002000000000 "x" 2%float;
    OpFlush map_to_list ].

(** Readings of the clock and values, all within one minute. *)
Definition ex_obs : list (Z * float64) :=
  [ (63000000001000000000, 2%float); (63000000003000000000, 3%float) ].

End MetchanExamples.

(* ===================================================================== *)
(** ** Example runs of the outlet                                        *)
(* ===================================================================== *)

Module OutletExamples.

Import Outlet.

(** A string of decimal digits as a number: what [Integer] and [Float]
    make of the strings of these examples. *)
Fixpoint parse_digits (s : string) (acc : Z) : option Z :=
  match s with
  | EmptyString => Some acc
  | String c r =>
      let n := Z.of_N (N_of_ascii c) in
      if (48 <=? n) && (n <=? 57) then parse_digits r (10 * acc + (n - 48))
      else None
  end.

Definition parse_dec (s : string) : option Z :=
  match s with
  | EmptyString => None
  | _ => parse_digits s 0
  end.

Definition ex_Float (s : string) : option float64 :=
  (fun n => PrimFloat.of_uint63 (Uint63.of_Z n)) <$> parse_dec s.

(** A record of the store. *)
Definition sample_of (consumer name type value : string) : Metric :=
  <["consumer" := consumer]> (<["name" := name]> (<["type" := type]>
  (<["value" := value]> (<["source" := "web.1"]> (<["label" := "ms"]> ∅))))).

(** The sample store: keys are [mkey:bucket:uuid]. *)
Definition ex_store : list (string * Metric) :=
  [ ("1:120:u1", sample_of "alice" "hits" "counter" "1");
    ("1:120:u2", sample_of "alice" "hits" "counter" "2");
    ("1:120:u3", sample_of "alice" "hits" "counter" "3");
    ("2:120:u4", sample_of "bob" "latency" "distribution" "4");
    ("3:120:u5", sample_of "carol" "depth" "last" "5");
    ("5:120:u6", sample_of "dave" "queue" "bogus" "6");
    ("7:180:u7", sample_of "erin" "size" "list" "7");
    ("7:180:u8", sample_of "erin" "size" "list" "9");
    ("9:180:u9", sample_of "dave" "queue" "bogus" "6");
    ("11:180:u10", sample_of "alice" "hits" "counter" "8") ].

Definition ex_keys (pattern : string) : res (list string) :=
  if decide (pattern = "*:120:*") then
    Ret ["1:120:u1"; "1:120:u2"; "1:120:u3"; "2:120:u4"; "3:120:u5"; "5:120:u6"]
  else if decide (pattern = "*:180:*") then
    Ret ["7:180:u7"; "7:180:u8"; "9:180:u9"; "11:180:u10"]
  else Ret [].

Definition ex_hgetall (key : string) : res Metric :=
  Ret (default ∅ (snd <$> List.find (fun kv => bool_decide (fst kv = key)) ex_store)).

(** The consumer directory knows everyone but erin. *)
Definition ex_directory (consumer_id : option string) : res Hash :=
  match consumer_id with
  | Some c =>
      if decide (c = "erin") then Raise (StandardError "no such consumer")
      else Ret (<["email" := c +:+ "@example.com"]> (<["token" := "t0"]> ∅))
  | None => Raise NoMethodError
  end.

(** The statistics of these examples: the least and the greatest value. *)
Definition ex_stats (metrics : list Metric) : res (list (string * float64)) :=
  match mapM (fun m : Metric => m !! "value" ≫= ex_Float) metrics with
  | Some vs => Ret [("min", bucket.min_of vs); ("max", bucket.max_of vs)]
  | None => Raise ArgumentError
  end.

Definition ex_env : Env :=
  mkEnv ex_keys ex_hgetall ex_directory (fun _ _ => Ret tt)
        ex_Float parse_dec (fun _ => 0%nat) ex_stats.

(** The three counter samples of [mkey] 1, as [snapshot] fetches them. *)
Definition ex_counter_group : list Metric :=
  [ <["mkey" := "1"]> (sample_of "alice" "hits" "counter" "1");
    <["mkey" := "1"]> (sample_of "alice" "hits" "counter" "2");
    <["mkey" := "1"]> (sample_of "alice" "hits" "counter" "3") ].

Definition ex_list_group : list Metric :=
  [ <["mkey" := "7"]> (sample_of "erin" "size" "list" "7");
    <["mkey" := "7"]> (sample_of "erin" "size" "list" "9") ].

Definition ex_bogus_group : list Metric :=
  [ <["mkey" := "5"]> (sample_of "dave" "queue" "bogus" "6") ].

(** The consumer groups of partition 1 of 2 in bucket 180. *)
Definition ex_groups : list (option string * list Metric) :=
  [ (Some "erin", ex_list_group);
    (Some "dave", [ <["mkey" := "9"]> (sample_of "dave" "queue" "bogus" "6") ]);
    (Some "alice", [ <["mkey" := "11"]> (sample_of "alice" "hits" "counter" "8") ]) ].

(** A store whose scan returns a key without number at its head. *)
Definition ex_env_bad_key : Env :=
  mkEnv (fun _ => Ret ["1:120:u1"; "abc:120:u2"; "3:120:u5"])
        ex_hgetall ex_directory (fun _ _ => Ret tt)
        ex_Float parse_dec (fun _ => 0%nat) ex_stats.

(** An API that refuses the batches of alice. *)
Definition ex_env_refusing : Env :=
  mkEnv ex_keys ex_hgetall ex_directory
        (fun c _ => if decide (email c = Some "alice@example.com")
                    then Raise (StandardError "503") else Ret tt)
        ex_Float parse_dec (fun _ => 0%nat) ex_stats.

(** A group of kind last whose first value is no number. *)
Definition ex_last_group : list Metric :=
  [ <["mkey" := "3"]> (sample_of "carol" "depth" "last" "n/a");
    <["mkey" := "3"]> (sample_of "carol" "depth" "last" "5") ].

(** The samples of one consumer: a counter with a value that is no number,
    and a well-formed metric. *)
Definition ex_bad_counter : list Metric :=
  [ <["mkey" := "1"]> (sample_of "alice" "hits" "counter" "1");
    <["mkey" := "1"]> (sample_of "alice" "hits" "counter" "oops");
    <["mkey" := "3"]> (sample_of "alice" "depth" "last" "5") ].

End OutletExamples.

(* ===================================================================== *)
(** * Properties                                                         *)
(* ===================================================================== *)

(** ** The order of [float64] *)

Module FloatOrder.

Lemma SFltb_irrefl x : SpecFloat.SFltb x x = false.
Proof.
  unfold SpecFloat.SFltb, SpecFloat.SFcompare.
  destruct x as [[] | [] | | [] m e]; try reflexivity;
    rewrite Z.compare_refl; change (PosDef.Pos.compare_cont Eq m m) with (Pos.compare m m);
    rewrite Pos.compare_refl; reflexivity.
Qed.

Lemma SFltb_trans x y z :
  SpecFloat.SFltb x y = true -> SpecFloat.SFltb y z = true ->
  SpecFloat.SFltb x z = true.
Proof.
  unfold SpecFloat.SFltb, SpecFloat.SFcompare.
  destruct x as [[] | [] | | [] mx ex], y as [[] | [] | | [] my ey],
           z as [[] | [] | | [] mz ez]; try (intros; congruence); try reflexivity;
  change (PosDef.Pos.compare_cont Eq mx my) with (Pos.compare mx my);
  change (PosDef.Pos.compare_cont Eq my mz) with (Pos.compare my mz);
  change (PosDef.Pos.compare_cont Eq mx mz) with (Pos.compare mx mz);
  destruct (Z.compare_spec ex ey), (Z.compare_spec ey ez),
      (Z.compare_spec ex ez); try (intros; congruence); try lia; subst;
  destruct (Pos.compare_spec mx my), (Pos.compare_spec my mz),
        (Pos.compare_spec mx mz); simpl; try (intros; congruence); lia.
Qed.

Lemma SFltb_cotrans x y z :
  SpecFloat.SFltb x z = true -> y <> SpecFloat.S754_nan ->
  SpecFloat.SFltb x y = true \/ SpecFloat.SFltb y z = true.
Proof.
  unfold SpecFloat.SFltb, SpecFloat.SFcompare.
  destruct x as [[] | [] | | [] mx ex], y as [[] | [] | | [] my ey],
           z as [[] | [] | | [] mz ez]; try (intros; congruence);
    try (intros; left; reflexivity); try (intros; right; reflexivity);
  change (PosDef.Pos.compare_cont Eq mx my) with (Pos.compare mx my);
  change (PosDef.Pos.compare_cont Eq my mz) with (Pos.compare my mz);
  change (PosDef.Pos.compare_cont Eq mx mz) with (Pos.compare mx mz);
  destruct (Z.compare_spec ex ey), (Z.compare_spec ey ez),
      (Z.compare_spec ex ez); try (intros; congruence); try lia; subst;
    try (intros; left; reflexivity); try (intros; right; reflexivity);
  destruct (Pos.compare_spec mx my), (Pos.compare_spec my mz),
        (Pos.compare_spec mx mz); simpl; try (intros; congruence); try lia;
    try (intros; left; reflexivity); try (intros; right; reflexivity).
Qed.

Lemma SFltb_nan_l y : SpecFloat.SFltb SpecFloat.S754_nan y = false.
Proof. reflexivity. Qed.

Lemma SFltb_nan_r x : SpecFloat.SFltb x SpecFloat.S754_nan = false.
Proof. destruct x as [[] | [] | | [] m e]; reflexivity. Qed.

Lemma ltb_irrefl (x : float64) : PrimFloat.ltb x x = false.
Proof. rewrite ltb_spec. apply SFltb_irrefl. Qed.

Lemma ltb_trans (x y z : float64) :
  PrimFloat.ltb x y = true -> PrimFloat.ltb y z = true -> PrimFloat.ltb x z = true.
Proof. rewrite !ltb_spec. apply SFltb_trans. Qed.

End FloatOrder.

(** ** The reducers of [bucket] *)

Module BucketFacts.

Import bucket FloatOrder.

Lemma ltb_nan_l x y : is_nan x -> PrimFloat.ltb x y = false.
Proof. intros H. rewrite ltb_spec, H. reflexivity. Qed.

Lemma ltb_nan_r x y : is_nan y -> PrimFloat.ltb x y = false.
Proof. intros H. rewrite ltb_spec, H. apply SFltb_nan_r. Qed.

Lemma ltb_cotrans (x y z : float64) :
  PrimFloat.ltb x z = true -> ~ is_nan y ->
  PrimFloat.ltb x y = true \/ PrimFloat.ltb y z = true.
Proof. rewrite !ltb_spec. apply SFltb_cotrans. Qed.

Lemma is_nan_dec x : {is_nan x} + {~ is_nan x}.
Proof. unfold is_nan. destruct (Prim2SF x); (left; reflexivity) || (right; discriminate). Defined.

Lemma fold_fmax_nan r a : is_nan a -> fold_left fmax r a = a.
Proof.
  intros Ha. induction r as [|x r IH]; simpl; [reflexivity|].
  unfold fmax at 2. rewrite (ltb_nan_l a x Ha). exact IH.
Qed.

Lemma fold_fmin_nan r a : is_nan a -> fold_left fmin r a = a.
Proof.
  intros Ha. induction r as [|x r IH]; simpl; [reflexivity|].
  unfold fmin at 2. rewrite (ltb_nan_r x a Ha). exact IH.
Qed.

Lemma fold_fmax_In r a : fold_left fmax r a = a \/ In (fold_left fmax r a) r.
Proof.
  revert a. induction r as [|x r IH]; intros a; simpl; [left; reflexivity|].
  destruct (IH (fmax a x)) as [H|H]; [|right; right; exact H].
  rewrite H. unfold fmax. destruct (PrimFloat.ltb a x); [right; left|left]; reflexivity.
Qed.

Lemma fold_fmin_In r a : fold_left fmin r a = a \/ In (fold_left fmin r a) r.
Proof.
  revert a. induction r as [|x r IH]; intros a; simpl; [left; reflexivity|].
  destruct (IH (fmin a x)) as [H|H]; [|right; right; exact H].
  rewrite H. unfold fmin. destruct (PrimFloat.ltb x a); [right; left|left]; reflexivity.
Qed.

Lemma fold_fmax_ub r a y :
  In y (a :: r) -> PrimFloat.ltb (fold_left fmax r a) y = false.
Proof.
  revert a y. induction r as [|x r IH]; intros a y Hy.
  - destruct Hy as [<-|[]]. apply ltb_irrefl.
  - simpl. set (m := fold_left fmax r (fmax a x)).
    assert (Hm : forall z, In z (fmax a x :: r) -> PrimFloat.ltb m z = false)
      by (intros z Hz; apply IH, Hz).
    destruct Hy as [<-|[<-|Hy]]; [| |apply Hm; right; exact Hy].
    + (* the accumulator *)
      pose proof (Hm _ (or_introl eq_refl)) as H0. unfold fmax in H0.
      destruct (PrimFloat.ltb a x) eqn:Hax; [|exact H0].
      destruct (PrimFloat.ltb m a) eqn:Hma; [|reflexivity].
      rewrite (ltb_trans _ _ _ Hma Hax) in H0. discriminate.
    + (* the head *)
      pose proof (Hm _ (or_introl eq_refl)) as H0. unfold fmax in H0.
      destruct (PrimFloat.ltb a x) eqn:Hax; [exact H0|].
      destruct (is_nan_dec a) as [Hn|Hn].
      * subst m. unfold fmax at 2. rewrite Hax, (fold_fmax_nan r a Hn).
        apply ltb_nan_l, Hn.
      * destruct (PrimFloat.ltb m x) eqn:Hmx; [|reflexivity].
        destruct (ltb_cotrans _ a _ Hmx Hn); congruence.
Qed.

Lemma fold_fmin_lb r a y :
  In y (a :: r) -> PrimFloat.ltb y (fold_left fmin r a) = false.
Proof.
  revert a y. induction r as [|x r IH]; intros a y Hy.
  - destruct Hy as [<-|[]]. apply ltb_irrefl.
  - simpl. set (m := fold_left fmin r (fmin a x)).
    assert (Hm : forall z, In z (fmin a x :: r) -> PrimFloat.ltb z m = false)
      by (intros z Hz; apply IH, Hz).
    destruct Hy as [<-|[<-|Hy]]; [| |apply Hm; right; exact Hy].
    + pose proof (Hm _ (or_introl eq_refl)) as H0. unfold fmin in H0.
      destruct (PrimFloat.ltb x a) eqn:Hxa; [|exact H0].
      destruct (PrimFloat.ltb a m) eqn:Ham; [|reflexivity].
      rewrite (ltb_trans _ _ _ Hxa Ham) in H0. discriminate.
    + pose proof (Hm _ (or_introl eq_refl)) as H0. unfold fmin in H0.
      destruct (PrimFloat.ltb x a) eqn:Hxa; [exact H0|].
      destruct (is_nan_dec a) as [Hn|Hn].
      * subst m. unfold fmin at 2. rewrite Hxa, (fold_fmin_nan r a Hn).
        apply ltb_nan_r, Hn.
      * destruct (PrimFloat.ltb x m) eqn:Hxm; [|reflexivity].
        destruct (ltb_cotrans _ a _ Hxm Hn); congruence.
Qed.

End BucketFacts.

(** ** The self-metrics channel *)

Module MetchanFacts.

Import bucket metchan MetchanExamples FloatOrder BucketFacts.

Lemma window_loc c now : GoTime.loc (window c now) = GoTime.LocLocal.
Proof. unfold window, GoTime.Truncate. destruct (_ <=? _); reflexivity. Qed.

(** The zero time is no window: a wall clock reading carries the local
    location, the zero value carries none. *)
Lemma window_not_zero c now : GoTime.zero <> window c now.
Proof. intros H. pose proof (window_loc c now) as Hl. rewrite <- H in Hl. discriminate. Qed.

Lemma outbox_add c now i v : outbox (add c now i v) = outbox c.
Proof. reflexivity. Qed.

Lemma outbox_run_adds calls c : outbox (run_adds c calls) = outbox c.
Proof.
  revert c. induction calls as [|call calls IH]; intros c; [reflexivity|].
  simpl. rewrite IH. apply outbox_add.
Qed.

(** [add] touches the bucket of its key only. *)
Lemma add_other_key c now i v k :
  key_of i <> k -> Buffer (add c now i v) !! k = Buffer c !! k.
Proof. intros Hk. unfold add. simpl. apply lookup_insert_ne, Hk. Qed.

(** Within the window of the bucket, [add] appends. *)
Lemma add_same_window c now i v b :
  Buffer c !! key_of i = Some b -> Time (id b) = window c now ->
  Buffer (add c now i v) !! key_of i = Some (mkBucket (id b) (Vals b ++ [v])).
Proof.
  intros Hb Ht. unfold add. simpl. rewrite lookup_insert_eq, Hb.
  fold (window c now). rewrite decide_True by exact Ht. reflexivity.
Qed.

(** In another window, [add] resets the values and then appends. *)
Lemma add_rollover c now i v b :
  Buffer c !! key_of i = Some b -> Time (id b) <> window c now ->
  Buffer (add c now i v) !! key_of i =
    Some (mkBucket (with_Time (id b) (window c now)) [v]).
Proof.
  intros Hb Ht. unfold add. simpl. rewrite lookup_insert_eq, Hb.
  fold (window c now). rewrite decide_False by exact Ht. reflexivity.
Qed.

(** On a key without bucket, [add] makes one; unless the identity already
    carries the window, the value [make] put there is dropped. *)
Lemma add_fresh c now i v :
  Buffer c !! key_of i = None -> Time i <> window c now ->
  Buffer (add c now i v) !! key_of i =
    Some (mkBucket (with_Time i (window c now)) [v]).
Proof.
  intros Hb Ht. unfold add. simpl. rewrite lookup_insert_eq, Hb.
  fold (window c now). simpl. rewrite decide_False by exact Ht. reflexivity.
Qed.

Lemma vals_for_cons k call calls :
  vals_for k (call :: calls) =
    if decide (key_of (call_id call) = k) then call_val call :: vals_for k calls
    else vals_for k calls.
Proof. unfold vals_for. simpl. unfold filter. simpl. destruct (decide _); reflexivity. Qed.

(** The calls that fall in the window of the bucket of [k] append their
    values to it, in order; calls on other keys leave it alone. *)
Lemma run_adds_in_window calls : forall c k b,
  Buffer c !! k = Some b ->
  Forall (fun call => key_of (call_id call) = k ->
                      window c (call_now call) = Time (id b)) calls ->
  Buffer (run_adds c calls) !! k =
    Some (mkBucket (id b) (Vals b ++ vals_for k calls)).
Proof.
  induction calls as [|call calls IH]; intros c k b Hb Hw.
  - simpl. unfold vals_for. simpl. rewrite app_nil_r. destruct b; exact Hb.
  - inversion Hw as [|? ? Hcall Hrest]; subst. simpl.
    rewrite vals_for_cons. destruct (decide (key_of (call_id call) = k)) as [Hk|Hk].
    + subst k. erewrite IH; [| apply add_same_window; [exact Hb | symmetry; auto] | exact Hrest].
      simpl. rewrite <- app_assoc. reflexivity.
    + erewrite IH; [reflexivity | rewrite add_other_key by exact Hk; exact Hb | exact Hrest].
Qed.

(** C1. From the first [add] of a window on a key (a bucket that holds
    another window, or no bucket yet and an identity as [Measure] and
    [CountReq] make it, with the zero time) and through the calls that
    follow in that window, the bucket of the key holds exactly the values
    added to it in the window, in order: the old values are dropped at the
    first call, [Count] is the number of calls, [Sum] their total, [Max]
    and [Min] values of the window that no value exceeds, resp. is
    below. *)
Theorem add_window_values (c : Channel) (first : Call) (calls : list Call) :
  let k := key_of (call_id first) in
  let w := window c (call_now first) in
  let vs := vals_for k (first :: calls) in
  match Buffer c !! k with
  | Some b => Time (id b) <> w
  | None => Time (call_id first) = GoTime.zero
  end ->
  Forall (fun call => key_of (call_id call) = k ->
                      window c (call_now call) = w) calls ->
  (exists b1, Buffer (run_adds c [first]) !! k = Some b1 /\
              Time (id b1) = w /\ Vals b1 = [call_val first]) /\
  exists b,
    Buffer (run_adds c (first :: calls)) !! k = Some b /\
    Time (id b) = w /\
    Vals b = vs /\
    vs = call_val first :: vals_for k calls /\
    Count b = Z.of_nat (length vs) /\
    Sum b = sum_of vs /\
    In (Max b) vs /\ (forall x, In x vs -> PrimFloat.ltb (Max b) x = false) /\
    In (Min b) vs /\ (forall x, In x vs -> PrimFloat.ltb x (Min b) = false).
Proof.
  intros k w vs Hfirst Hcalls.
  assert (Hvs : vs = call_val first :: vals_for k calls).
  { subst vs. rewrite vals_for_cons. subst k. rewrite decide_True; reflexivity. }
  assert (H1 : exists i1,
             Buffer (add c (call_now first) (call_id first) (call_val first)) !! k
               = Some (mkBucket i1 [call_val first]) /\ Time i1 = w).
  { subst k. destruct (Buffer c !! key_of (call_id first)) as [b0|] eqn:Hb0.
    - eexists. split; [apply add_rollover; eassumption | reflexivity].
    - eexists. split; [apply add_fresh; [assumption|] | reflexivity].
      rewrite Hfirst. apply window_not_zero. }
  destruct H1 as (i1 & Hb1 & Ht1).
  split; [exists (mkBucket i1 [call_val first]); auto|].
  exists (mkBucket i1 ([call_val first] ++ vals_for k calls)).
  split.
  { simpl. apply (run_adds_in_window calls _ k _ Hb1). simpl. rewrite Ht1. exact Hcalls. }
  rewrite Hvs. unfold Count, Sum, Max, Min. simpl Vals. simpl id.
  repeat split; try assumption.
  - simpl. destruct (fold_fmax_In (vals_for k calls) (call_val first)) as [->|H]; auto.
  - intros x Hx. simpl. apply fold_fmax_ub, Hx.
  - simpl. destruct (fold_fmin_In (vals_for k calls) (call_val first)) as [->|H]; auto.
  - intros x Hx. simpl. apply fold_fmin_lb, Hx.
Qed.

Lemma add_window_values_witness :
  exists b,
    Buffer (run_adds ex_chan (ex_first :: ex_calls)) !! "l2met.x:host1" = Some b /\
    Vals b = [1; 2; 3]%float /\ Count b = 3 /\ Sum b = 6%float /\
    Max b = 3%float /\ Min b = 1%float.
Proof.
  destruct (add_window_values ex_chan ex_first ex_calls)
    as (_ & b & Hb & _ & Hv & _ & Hc & Hs & _).
  - reflexivity.
  - repeat constructor.
  - exists b. split; [exact Hb|]. unfold Count, Sum, Max, Min in *. rewrite Hc, Hs, Hv.
    vm_compute. repeat split; reflexivity.
Defined.

Lemma run_adds_other_key calls : forall c k,
  Forall (fun call => key_of (call_id call) <> k) calls ->
  Buffer (run_adds c calls) !! k = Buffer c !! k.
Proof.
  induction calls as [|call calls IH]; intros c k Hk; [reflexivity|].
  inversion Hk; subst. simpl. rewrite IH by assumption. apply add_other_key. assumption.
Qed.

(** What one [flush] sends: the metric of every visited bucket. *)
Lemma flush_sends order c :
  flush order c =
    with_outbox c (outbox c ++ map (fun kb => metric_of (snd kb)) (order (Buffer c))).
Proof.
  unfold flush. generalize (order (Buffer c)) as l. intros l. revert c.
  induction l as [|kb l IH]; intros c.
  - simpl. rewrite app_nil_r. destruct c; reflexivity.
  - simpl. rewrite IH. unfold with_outbox. simpl. rewrite <- app_assoc. reflexivity.
Qed.

Lemma Buffer_flush order c : Buffer (flush order c) = Buffer c.
Proof. rewrite flush_sends. reflexivity. Qed.

Lemma flush_sends_bucket order c k b :
  (forall m, order m ≡ₚ map_to_list m) ->
  Buffer c !! k = Some b ->
  metric_of b ∈ map (fun kb => metric_of (snd kb)) (order (Buffer c)).
Proof.
  intros Hperm Hb. apply (list_elem_of_fmap_2 (fun kb => metric_of (snd kb)) _ (k, b)).
  rewrite Hperm. apply elem_of_map_to_list. exact Hb.
Qed.

(** C10. [flush] leaves the buffer as it is: no key is removed and no
    bucket changes its time or its values. Hence a bucket that no [add]
    touches between two flushes is sent twice, with the same metric: the
    window, count, sum, max and min of the first time. *)
Theorem flush_keeps_buffer
    (order1 order2 : gmap string Bucket -> list (string * Bucket))
    (c : Channel) :
  (forall m, order1 m ≡ₚ map_to_list m) ->
  (forall m, order2 m ≡ₚ map_to_list m) ->
  Buffer (flush order1 c) = Buffer c /\
  forall k b calls,
    Buffer c !! k = Some b ->
    Forall (fun call => key_of (call_id call) <> k) calls ->
    let c1 := flush order1 c in
    let c2 := flush order2 (run_adds c1 calls) in
    exists sent1 sent2,
      outbox c1 = outbox c ++ sent1 /\
      sent1 ≡ₚ map (fun kb => metric_of (snd kb)) (map_to_list (Buffer c)) /\
      outbox c2 = outbox c1 ++ sent2 /\
      metric_of b ∈ sent1 /\
      metric_of b ∈ sent2 /\
      Buffer c2 !! k = Some b.
Proof.
  intros H1 H2. split; [apply Buffer_flush|].
  intros k b calls Hb Hcalls c1 c2.
  assert (Hb' : Buffer (run_adds c1 calls) !! k = Some b).
  { rewrite run_adds_other_key by exact Hcalls. subst c1. rewrite Buffer_flush. exact Hb. }
  exists (map (fun kb => metric_of (snd kb)) (order1 (Buffer c))),
         (map (fun kb => metric_of (snd kb)) (order2 (Buffer (run_adds c1 calls)))).
  repeat split.
  - subst c1. rewrite flush_sends. reflexivity.
  - rewrite H1. reflexivity.
  - subst c2. rewrite flush_sends. simpl. rewrite outbox_run_adds. reflexivity.
  - eapply flush_sends_bucket; eassumption.
  - eapply flush_sends_bucket; eassumption.
  - subst c2. rewrite Buffer_flush. exact Hb'.
Qed.

Lemma flush_keeps_buffer_witness :
  let c := run_adds ex_chan (ex_first :: ex_calls) in
  Buffer (flush map_to_list c) = Buffer c /\
  exists b sent1 sent2,
    Buffer c !! "l2met.y:host1" = Some b /\
    outbox (flush map_to_list c) = sent1 /\
    outbox (flush map_to_list (run_adds (flush map_to_list c) [ex_first])) = sent1 ++ sent2 /\
    metric_of b ∈ sent1 /\ metric_of b ∈ sent2.
Proof.
  intros c.
  destruct (flush_keeps_buffer map_to_list map_to_list c
              (fun m => reflexivity _) (fun m => reflexivity _)) as [Hbuf Hk].
  split; [exact Hbuf|].
  destruct (Hk "l2met.y:host1" ex_bucket_y [ex_first])
    as (s1 & s2 & Ho1 & _ & Ho2 & Hin1 & Hin2 & _).
  - vm_compute. reflexivity.
  - repeat constructor. vm_compute. discriminate.
  - exists ex_bucket_y, s1, s2. split; [vm_compute; reflexivity|].
    split; [exact Ho1|]. split; [rewrite Ho2, Ho1; reflexivity|]. split; assumption.
Defined.

Lemma received_app o1 o2 : received (o1 ++ o2) = received o1 ++ received o2.
Proof. unfold received. apply omap_app. Qed.

Lemma received_outlet_loop W c mets : received (outlet_loop W c mets) = mets.
Proof.
  induction mets as [|m mets IH]; [reflexivity|].
  change (outlet_loop W c (m :: mets)) with (outlet_turn W c m ++ outlet_loop W c mets).
  rewrite received_app, IH. unfold outlet_turn.
  destruct (post W c m); reflexivity.
Qed.

(** C9, as the code has it. [post] sends the batch [{gauges: [m]}] of the
    one metric [m]. It returns an error when the batch cannot be marshalled,
    the request cannot be built or the exchange fails; once a response is
    there, it returns an error exactly when the status code is outside 2xx,
    with the body in the message when the body can be read. The poster loop
    receives every metric of the outbox once, in order, whatever [post]
    returns: nothing is put back. *)
Theorem post_error_cases (W : World) (c : Channel) (m : libratoMetric) :
  (forall e, Marshal W (mkLibratoGauge [m]) = Err e -> post W c m = Some e) /\
  (forall j e, Marshal W (mkLibratoGauge [m]) = Ok j ->
     NewRequest W "POST" (url c) j = Err e -> post W c m = Some e) /\
  (forall j req e, Marshal W (mkLibratoGauge [m]) = Ok j ->
     NewRequest W "POST" (url c) j = Ok req ->
     Do W (post_request c req) = Err e -> post W c m = Some e) /\
  (forall j req resp body, Marshal W (mkLibratoGauge [m]) = Ok j ->
     NewRequest W "POST" (url c) j = Ok req ->
     Do W (post_request c req) = Ok (resp, body) ->
     Body (post_request c req) = j /\
     (post W c m <> None <-> StatusCode resp ÷ 100 <> 2) /\
     (StatusCode resp ÷ 100 <> 2 ->
      post W c m =
        Some (match ReadAll resp with
              | Some s => "code=" +:+ pretty (StatusCode resp) +:+
                          " resp=body=" +:+ s +:+ " req-body=" +:+ body
              | None => "code=" +:+ pretty (StatusCode resp)
              end))) /\
  (forall mets, received (outlet_loop W c mets) = mets) /\
  outbox (fst (outlet W c)) = [] /\
  received (snd (outlet W c)) = outbox c.
Proof.
  split; [|split; [|split; [|split; [|split; [|split]]]]].
  - intros e Hm. unfold post. rewrite Hm. reflexivity.
  - intros j e Hm Hreq. unfold post. rewrite Hm, Hreq. reflexivity.
  - intros j req e Hm Hreq Hdo. unfold post. rewrite Hm, Hreq, Hdo. reflexivity.
  - intros j req resp body Hm Hreq Hdo. split; [|split].
    + unfold NewRequest in Hreq. destruct (ParseURL W (url c)); [discriminate|].
      injection Hreq as <-. reflexivity.
    + unfold post. rewrite Hm, Hreq, Hdo. destruct (decide _) as [Hs|Hs].
      * split; [intros _; exact Hs | intros _; destruct (ReadAll resp); discriminate].
      * split; [intros Hn; exfalso; apply Hn; reflexivity | intros Hn; contradiction].
    + intros Hs. unfold post. rewrite Hm, Hreq, Hdo, decide_True by exact Hs.
      destruct (ReadAll resp); reflexivity.
  - intros mets. apply received_outlet_loop.
  - reflexivity.
  - apply received_outlet_loop.
Qed.

Lemma post_error_cases_witness :
  post (ex_world_status 404) ex_chan ex_metric =
    Some "code=404 resp=body=no such metric req-body=" /\
  post (ex_world_status 204) ex_chan ex_metric = None.
Proof.
  destruct (post_error_cases (ex_world_status 404) ex_chan ex_metric)
    as (_ & _ & _ & H404 & _).
  destruct (post_error_cases (ex_world_status 204) ex_chan ex_metric)
    as (_ & _ & _ & H204 & _).
  split.
  - destruct (H404 "gauges:1" (mkRequest "POST" (url ex_chan) "gauges:1" [] None)
                   (mkResponse 404 (Some "no such metric")) "")
      as (_ & _ & H); [reflexivity | reflexivity | reflexivity |].
    rewrite H; [reflexivity | vm_compute; discriminate].
  - destruct (H204 "gauges:1" (mkRequest "POST" (url ex_chan) "gauges:1" [] None)
                   (mkResponse 204 (Some "no such metric")) "")
      as (_ & [H _] & _); [reflexivity | reflexivity | reflexivity |].
    destruct (post (ex_world_status 204) ex_chan ex_metric) eqn:E; [|reflexivity].
    exfalso. apply H; [discriminate | reflexivity].
Defined.

(** C9, as stated, fails: when the API cannot be reached, [post] returns an
    error although there is no response, hence no status code outside
    2xx. *)
Lemma post_error_without_status :
  ~ (post ex_world_down ex_chan ex_metric <> None <->
     exists req resp body,
       Do ex_world_down req = Ok (resp, body) /\ StatusCode resp ÷ 100 <> 2).
Proof.
  intros [H _]. destruct H as (req & resp & body & Hdo & _).
  - vm_compute. discriminate.
  - discriminate Hdo.
Qed.

End MetchanFacts.

(** ** Splitting *)

Module StrFacts.

Import Str.

Lemma split_nonempty sep s : split sep s <> [].
Proof.
  destruct s as [|a r]; [discriminate|]. cbn [split].
  destruct (Ascii.eqb a sep); [discriminate|]. destruct (split sep r); discriminate.
Qed.

Lemma split_String sep a r :
  split sep (String a r) =
    if Ascii.eqb a sep then EmptyString :: split sep r
    else match split sep r with
         | [] => [String a EmptyString]
         | f :: fs => String a f :: fs
         end.
Proof. reflexivity. Qed.

Lemma append_String a s t : String a s +:+ t = String a (s +:+ t).
Proof. reflexivity. Qed.

Lemma append_Empty t : EmptyString +:+ t = t.
Proof. reflexivity. Qed.

(** The first field ends at the first separator. *)
Lemma split_prefix sep pre rest :
  has_char sep pre = false ->
  split sep (pre +:+ String sep rest) = pre :: split sep rest.
Proof.
  induction pre as [|a pre IH]; intros Hno.
  - rewrite append_Empty, split_String, Ascii.eqb_refl. reflexivity.
  - cbn [has_char] in Hno. apply orb_false_iff in Hno. destruct Hno as [Ha Hpre].
    rewrite append_String, split_String, Ha, (IH Hpre). reflexivity.
Qed.

Lemma strip_trailing_empty_head x l :
  x <> EmptyString -> head (strip_trailing_empty (x :: l)) = Some x.
Proof.
  intros Hx. cbn. destruct (strip_trailing_empty l); [|reflexivity].
  destruct (decide (x = EmptyString)); [contradiction|reflexivity].
Qed.

Lemma ruby_split_head sep pre rest :
  pre <> EmptyString -> has_char sep pre = false ->
  head (ruby_split sep (pre +:+ String sep rest)) = Some pre.
Proof.
  intros Hne Hno. unfold ruby_split. rewrite split_prefix by exact Hno.
  apply strip_trailing_empty_head, Hne.
Qed.

End StrFacts.

(** ** The outlet *)

Module OutletFacts.

Import Outlet.

Section GroupBy.

Context {K A : Type} `{EqDecision K}.
Variable f : A -> K.

Lemma keep_key_pair (k k0 : K) (ys : list A) : keep_key k (k0, ys) = bool_decide (k0 <> k).
Proof. reflexivity. Qed.

Lemma filter_group_insert_ne (k k' : K) (x : A) (gs : list (K * list A)) :
  k' <> k ->
  List.filter (keep_key k) (group_insert k' x gs) =
  group_insert k' x (List.filter (keep_key k) gs).
Proof.
  intros Hne. induction gs as [|[k0 xs] gs IH]; cbn [group_insert List.filter].
  - rewrite keep_key_pair, bool_decide_true by exact Hne. reflexivity.
  - destruct (decide (k' = k0)) as [->|Hk0]; cbn [List.filter].
    + rewrite !keep_key_pair, !bool_decide_true by exact Hne.
      cbn [group_insert]. destruct (decide (k0 = k0)); [reflexivity|congruence].
    + rewrite IH, !keep_key_pair.
      destruct (bool_decide (k0 <> k)); [|reflexivity].
      cbn [group_insert]. destruct (decide (k' = k0)); [congruence|reflexivity].
Qed.

Lemma filter_group_insert_eq (k : K) (x : A) (gs : list (K * list A)) :
  List.filter (keep_key k) (group_insert k x gs) = List.filter (keep_key k) gs.
Proof.
  induction gs as [|[k0 xs] gs IH]; cbn [group_insert List.filter].
  - rewrite keep_key_pair.
    rewrite bool_decide_false by (intros Hn; apply Hn; reflexivity). reflexivity.
  - destruct (decide (k = k0)) as [->|Hk0]; cbn [List.filter].
    + rewrite !keep_key_pair.
      rewrite bool_decide_false by (intros Hn; apply Hn; reflexivity). reflexivity.
    + rewrite IH. reflexivity.
Qed.

(** Dropping the elements of key [k] from the list drops the group of [k]
    and leaves the other groups as they are. *)
Lemma group_into_filter (k : K) (l : list A) : forall gs : list (K * list A),
  List.filter (keep_key k) (group_into f gs l) =
  group_into f (List.filter (keep_key k) gs)
             (List.filter (fun x => bool_decide (f x <> k)) l).
Proof.
  induction l as [|x l IH]; intros gs; [reflexivity|].
  unfold group_into in *. cbn [fold_left List.filter]. rewrite IH.
  destruct (decide (f x = k)) as [Hk|Hk].
  - rewrite bool_decide_false by (intros Hn; apply Hn; exact Hk).
    rewrite <- Hk, filter_group_insert_eq. reflexivity.
  - rewrite bool_decide_true by exact Hk. cbn [fold_left].
    rewrite filter_group_insert_ne by exact Hk. reflexivity.
Qed.

Lemma group_by_filter (k : K) (l : list A) :
  group_by f (List.filter (fun x => bool_decide (f x <> k)) l) =
  List.filter (keep_key k) (group_by f l).
Proof. unfold group_by. symmetry. apply (group_into_filter k l []). Qed.

Lemma group_insert_keys (k : K) (x : A) (gs : list (K * list A)) :
  map fst (group_insert k x gs) =
  if decide (k ∈ map fst gs) then map fst gs else map fst gs ++ [k].
Proof.
  induction gs as [|[k0 xs] gs IH]; cbn [group_insert map fst].
  - destruct (decide _) as [Hin|_]; [inversion Hin|reflexivity].
  - destruct (decide (k = k0)) as [->|Hk0]; cbn [map fst].
    + rewrite decide_True by (left; reflexivity). reflexivity.
    + rewrite IH. destruct (decide (k ∈ map fst gs)) as [Hin|Hin].
      * rewrite decide_True by (right; exact Hin). reflexivity.
      * rewrite decide_False; [reflexivity|].
        intros Hin'. apply elem_of_cons in Hin'. destruct Hin'; [congruence|contradiction].
Qed.

Lemma NoDup_group_insert (k : K) (x : A) (gs : list (K * list A)) :
  NoDup (map fst gs) -> NoDup (map fst (group_insert k x gs)).
Proof.
  intros Hnd. rewrite group_insert_keys.
  destruct (decide (k ∈ map fst gs)) as [Hin|Hin]; [exact Hnd|].
  apply NoDup_app. repeat split.
  - exact Hnd.
  - intros y Hy Hy'. apply list_elem_of_singleton in Hy'. subst y. contradiction.
  - apply NoDup_singleton.
Qed.

Lemma NoDup_group_into (l : list A) : forall gs : list (K * list A),
  NoDup (map fst gs) -> NoDup (map fst (group_into f gs l)).
Proof.
  induction l as [|x l IH]; intros gs Hnd; [exact Hnd|].
  apply IH, NoDup_group_insert, Hnd.
Qed.

Lemma group_of_insert (k k' : K) (x : A) (gs : list (K * list A)) :
  group_of k (group_insert k' x gs) =
  if bool_decide (k' = k) then group_of k gs ++ [x] else group_of k gs.
Proof.
  unfold group_of.
  induction gs as [|[k0 xs] gs IH]; cbn [group_insert List.find fst snd].
  - destruct (decide (k' = k)) as [->|Hne].
    + rewrite !bool_decide_true by reflexivity. reflexivity.
    + rewrite !bool_decide_false by exact Hne. reflexivity.
  - destruct (decide (k' = k0)) as [->|Hk0]; cbn [List.find fst snd].
    + destruct (decide (k0 = k)) as [->|Hne].
      * rewrite !bool_decide_true by reflexivity. reflexivity.
      * rewrite !bool_decide_false by exact Hne. reflexivity.
    + destruct (decide (k0 = k)) as [->|Hne].
      * rewrite bool_decide_true by reflexivity.
        rewrite bool_decide_false by exact Hk0. reflexivity.
      * rewrite (bool_decide_false (k0 = k)) by exact Hne. exact IH.
Qed.

Lemma group_of_into (k : K) (l : list A) : forall gs : list (K * list A),
  group_of k (group_into f gs l) =
  group_of k gs ++ List.filter (fun x => bool_decide (f x = k)) l.
Proof.
  induction l as [|x l IH]; intros gs.
  - cbn. rewrite app_nil_r. reflexivity.
  - unfold group_into in *. cbn [fold_left List.filter]. rewrite IH, group_of_insert.
    destruct (bool_decide (f x = k)); [rewrite <- app_assoc|]; reflexivity.
Qed.

Lemma group_of_In (k : K) (g : list A) (gs : list (K * list A)) :
  NoDup (map fst gs) -> In (k, g) gs -> group_of k gs = g.
Proof.
  unfold group_of. induction gs as [|[k0 xs] gs IH]; intros Hnd Hin; [destruct Hin|].
  cbn [List.find fst snd]. cbn [map fst] in Hnd. apply NoDup_cons in Hnd.
  destruct Hnd as [Hnotin Hnd']. destruct Hin as [Heq|Hin].
  - injection Heq as -> ->. rewrite bool_decide_true by reflexivity. reflexivity.
  - destruct (decide (k0 = k)) as [->|Hne].
    + exfalso. apply Hnotin. apply list_elem_of_In. apply (in_map fst _ _ Hin).
    + rewrite bool_decide_false by exact Hne. apply IH; assumption.
Qed.

(** The group of key [k] holds the elements whose key is [k], in order. *)
Lemma In_group_by (k : K) (g : list A) (l : list A) :
  In (k, g) (group_by f l) -> g = List.filter (fun x => bool_decide (f x = k)) l.
Proof.
  intros Hin. unfold group_by in *. fold (group_into f [] l) in *.
  rewrite <- (group_of_In k g _ (NoDup_group_into l [] (NoDup_nil_2)) Hin).
  apply (group_of_into k l []).
Qed.

(** A list whose elements all have key [k] is one group. *)
Lemma group_into_single (k : K) (l : list A) : forall pre : list A,
  Forall (fun x => f x = k) l ->
  group_into f [(k, pre)] l = [(k, pre ++ l)].
Proof.
  induction l as [|x l IH]; intros pre Hl.
  - cbn. rewrite app_nil_r. reflexivity.
  - inversion Hl; subst. unfold group_into in *. cbn [fold_left group_insert].
    destruct (decide (f x = f x)); [|congruence].
    rewrite IH by assumption. rewrite <- app_assoc. reflexivity.
Qed.

Lemma group_by_single (k : K) (x : A) (l : list A) :
  Forall (fun x => f x = k) (x :: l) -> group_by f (x :: l) = [(k, x :: l)].
Proof.
  intros Hl. inversion Hl; subst. unfold group_by. cbn [fold_left group_insert].
  apply (group_into_single (f x) l [x]). assumption.
Qed.

End GroupBy.


Lemma bind_Ret_inv {A B} (m : res A) (k : A -> res B) (y : B) :
  m ≫= k = Ret y -> exists x, m = Ret x /\ k x = Ret y.
Proof. destruct m as [x|e]; [intros H; exists x; auto | discriminate]. Qed.

Lemma mapR_cons {A B} (f : A -> res B) (x : A) (r : list A) :
  mapR f (x :: r) = (y ← f x; ys ← mapR f r; Ret (y :: ys)).
Proof. reflexivity. Qed.

Section WithEnv.

Variable E : Env.

(** *** Partition assignment *)

Lemma in_partition_int p P key n :
  P <> 0 -> Integer_of E (mkey_of key) = Ret n ->
  in_partition E p P key = Ret (bool_decide (n mod P = p)).
Proof.
  intros HP Hn. unfold in_partition. rewrite Hn. cbn. unfold modulo.
  rewrite decide_False by exact HP. reflexivity.
Qed.

Lemma retained_keys_filter p P keys :
  P <> 0 ->
  Forall (fun key => exists n, Integer_of E (mkey_of key) = Ret n) keys ->
  retained_keys E p P keys =
    Ret (List.filter (fun key => bool_decide (prefix_int E key mod P = p)) keys).
Proof.
  intros HP Hkeys. unfold retained_keys.
  induction Hkeys as [|key keys [n Hn] _ IH]; [reflexivity|].
  assert (Hp : prefix_int E key = n) by (unfold prefix_int; rewrite Hn; reflexivity).
  cbn [selectR List.filter]. rewrite (in_partition_int p P key n HP Hn), IH, Hp.
  destruct (bool_decide (n mod P = p)); reflexivity.
Qed.

(** C2. For a partition count [P > 0] and scanned keys that start with an
    integer, [snapshot] retains for partition [p] exactly the keys whose
    integer prefix is [p] modulo [P], whatever else the scan returned: the
    assignment depends on the key alone. Every scanned key is retained for
    exactly one [p] of [0..P-1]. The prefix of a key is what stands before
    its first colon. *)
Theorem partition_assignment (P : Z) (keys : list string) :
  0 < P ->
  Forall (fun key => exists n, Integer_of E (mkey_of key) = Ret n) keys ->
  (forall p, retained_keys E p P keys =
     Ret (List.filter (fun key => bool_decide (prefix_int E key mod P = p)) keys)) /\
  (forall key, In key keys ->
     exists p, (0 <= p < P /\
                exists kept, retained_keys E p P keys = Ret kept /\ In key kept) /\
               forall q, (exists kept, retained_keys E q P keys = Ret kept /\ In key kept) ->
                         q = p) /\
  (forall pre rest, pre <> "" -> Str.has_char ":" pre = false ->
     mkey_of (pre +:+ ":" +:+ rest) = Some pre).
Proof.
  intros HP Hkeys.
  assert (Hret : forall p, retained_keys E p P keys =
     Ret (List.filter (fun key => bool_decide (prefix_int E key mod P = p)) keys))
    by (intros p; apply retained_keys_filter; [lia | exact Hkeys]).
  split; [exact Hret|].
  split; [|intros pre rest; apply StrFacts.ruby_split_head].
  intros key Hin. exists (prefix_int E key mod P). split; [split|].
  - apply Z.mod_pos_bound, HP.
  - eexists. split; [apply Hret|]. apply filter_In. split; [exact Hin|].
    apply bool_decide_eq_true. reflexivity.
  - intros q (kept & Hq & Hk). rewrite Hret in Hq. injection Hq as <-.
    apply filter_In in Hk. destruct Hk as [_ Hk]. apply bool_decide_eq_true in Hk.
    symmetry. exact Hk.
Qed.


(** *** The aggregation algebra *)

Lemma aggregate_outputs bucket metrics :
  aggregate E bucket metrics = outputs_of E bucket (group_by mkey metrics).
Proof. reflexivity. Qed.

Lemma outputs_of_cons bucket g gs :
  outputs_of E bucket (g :: gs) =
    (b ← aggregate_group E bucket (snd g);
     out ← outputs_of E bucket gs;
     Ret (outputs_of_block b ++ out)).
Proof.
  unfold outputs_of. cbn [mapR].
  destruct (aggregate_group E bucket (snd g)) as [b|e]; [|reflexivity].
  cbn. destruct (mapR _ gs) as [bs|e]; reflexivity.
Qed.

(** A group whose block returns [nil] adds nothing, and the other groups
    are worked on as without it. *)
Lemma outputs_of_drop_nil bucket (k : option string) gs :
  (forall g, In (k, g) gs -> aggregate_group E bucket g = Ret Nil) ->
  outputs_of E bucket gs = outputs_of E bucket (List.filter (keep_key k) gs).
Proof.
  induction gs as [|[k0 g0] gs IH]; intros Hnil; [reflexivity|].
  cbn [List.filter]. unfold keep_key at 1. cbn [fst].
  assert (IH' : outputs_of E bucket gs = outputs_of E bucket (List.filter (keep_key k) gs))
    by (apply IH; intros g Hg; apply Hnil; right; exact Hg).
  destruct (decide (k0 = k)) as [->|Hne].
  - rewrite bool_decide_false by (intros Hn; apply Hn; reflexivity).
    rewrite outputs_of_cons. cbn [snd]. rewrite (Hnil g0) by (left; reflexivity).
    cbn. rewrite <- IH'. destruct (outputs_of E bucket gs); reflexivity.
  - rewrite bool_decide_true by exact Hne. rewrite !outputs_of_cons, IH'. reflexivity.
Qed.

Lemma outputs_of_In bucket gs : forall out k g b,
  outputs_of E bucket gs = Ret out -> In (k, g) gs ->
  aggregate_group E bucket g = Ret b ->
  forall x, In x (outputs_of_block b) -> In x out.
Proof.
  induction gs as [|[k0 g0] gs IH]; intros out k g b Hout Hin Hb x Hx; [destruct Hin|].
  rewrite outputs_of_cons in Hout. cbn [snd] in Hout.
  destruct (aggregate_group E bucket g0) as [b0|e] eqn:Hb0; [|discriminate].
  cbn in Hout. destruct (outputs_of E bucket gs) as [out'|e] eqn:Hout'; [|discriminate].
  cbn in Hout. injection Hout as <-. apply in_or_app.
  destruct Hin as [Heq|Hin].
  - injection Heq as -> ->. rewrite Hb in Hb0. injection Hb0 as <-. left. exact Hx.
  - right. eapply IH; eauto.
Qed.

(** The samples of [mkey] [k] are a group of [aggregate], when there are
    some. *)
Lemma group_by_mkey_In (k : option string) metrics m0 rest :
  List.filter (fun m : Metric => bool_decide (m !! "mkey" = k)) metrics = m0 :: rest ->
  In (k, m0 :: rest) (group_by mkey metrics).
Proof.
  intros Hf. pose proof (group_of_into mkey k metrics []) as Hg.
  change (Outlet.group_into mkey [] metrics) with (group_by mkey metrics) in Hg.
  cbv beta in Hg. rewrite Hf in Hg. unfold group_of in Hg.
  destruct (List.find _ (group_by mkey metrics)) as [[k' g]|] eqn:Hfind; [|discriminate].
  apply find_some in Hfind. destruct Hfind as [Hin Hk].
  apply bool_decide_eq_true in Hk. cbn in Hk, Hg. subst. exact Hin.
Qed.

Lemma type_is_true s t : s !! "type" = Some t -> type_is s t = true.
Proof. intros H. unfold type_is. apply bool_decide_eq_true. exact H. Qed.

Lemma type_is_false s t : s !! "type" <> Some t -> type_is s t = false.
Proof. intros H. unfold type_is. apply bool_decide_eq_false. exact H. Qed.

(** C7. A group of samples that is not empty and whose kind is "counter"
    gives exactly one output, named [<name>.count], whose value is the sum
    of the values of all samples of the group, provided these values are
    numbers. *)
Theorem counter_group_sum (bucket : Z) (metrics : list Metric)
    (k : option string) (m0 : Metric) (rest : list Metric)
    (v0 : float64) (vs : list float64) :
  let grp := m0 :: rest in
  let s := representative E grp m0 in
  List.filter (fun m : Metric => bool_decide (m !! "mkey" = k)) metrics = grp ->
  s !! "type" = Some "counter" ->
  mapR (fun m : Metric => Float_of E (m !! "value")) grp = Ret (v0 :: vs) ->
  In (k, grp) (group_by mkey metrics) /\
  aggregate_group E bucket grp = Ret (One (counter_gauge bucket s v0 vs)) /\
  aggregate E bucket grp = Ret [counter_gauge bucket s v0 vs] /\
  forall out, aggregate E bucket metrics = Ret out ->
              In (counter_gauge bucket s v0 vs) out.
Proof.
  intros grp s Hgrp Hty Hvals.
  assert (Hin : In (k, grp) (group_by mkey metrics)) by (apply group_by_mkey_In, Hgrp).
  assert (Hblk : aggregate_group E bucket grp = Ret (One (counter_gauge bucket s v0 vs))).
  { unfold aggregate_group, grp. fold grp. fold s. rewrite (type_is_true s _ Hty).
    unfold grp in Hvals. rewrite mapR_cons in Hvals.
    apply bind_Ret_inv in Hvals. destruct Hvals as (v0' & -> & Hvals).
    apply bind_Ret_inv in Hvals. destruct Hvals as (vs' & -> & Hvals).
    injection Hvals as -> ->. reflexivity. }
  split; [exact Hin|]. split; [exact Hblk|]. split.
  - rewrite aggregate_outputs.
    rewrite (group_by_single mkey k m0 rest).
    + rewrite outputs_of_cons. cbn [snd]. fold grp. rewrite Hblk. reflexivity.
    + fold grp. rewrite <- Hgrp. apply List.Forall_forall. intros m Hm.
      apply filter_In in Hm. destruct Hm as [_ Hm]. apply bool_decide_eq_true in Hm. exact Hm.
  - intros out Hout. rewrite aggregate_outputs in Hout.
    eapply (outputs_of_In bucket _ out k grp _ Hout Hin Hblk). left. reflexivity.
Qed.

(** C6. The kind of a distribution is written "list" in the code: a
    group of samples of that kind gives one output per statistic that
    [Stats.aggregate] returns for the samples of the group, named
    [<name>.<stat>] and carrying the value of the statistic; they are
    several when the routine returns several statistics. *)
Theorem list_group_statistics (bucket : Z) (metrics : list Metric)
    (k : option string) (m0 : Metric) (rest : list Metric)
    (stats : list (string * float64)) :
  let grp := m0 :: rest in
  let s := representative E grp m0 in
  List.filter (fun m : Metric => bool_decide (m !! "mkey" = k)) metrics = grp ->
  s !! "type" = Some "list" ->
  Stats_aggregate E grp = Ret stats ->
  In (k, grp) (group_by mkey metrics) /\
  aggregate_group E bucket grp = Ret (Many (map (stat_gauge bucket s) stats)) /\
  length (map (stat_gauge bucket s) stats) = length stats /\
  aggregate E bucket grp = Ret (map (stat_gauge bucket s) stats) /\
  (forall out, aggregate E bucket metrics = Ret out ->
               forall sv, In sv stats -> In (stat_gauge bucket s sv) out) /\
  (forall sv, In sv stats ->
     gname (stat_gauge bucket s sv) = default "" (s !! "name") +:+ "." +:+ fst sv /\
     gvalue (stat_gauge bucket s sv) = snd sv) /\
  ((1 < length stats)%nat ->
   forall out, aggregate E bucket grp = Ret out -> (1 < length out)%nat).
Proof.
  intros grp s Hgrp Hty Hstats.
  assert (Hin : In (k, grp) (group_by mkey metrics)) by (apply group_by_mkey_In, Hgrp).
  assert (Hblk : aggregate_group E bucket grp
                 = Ret (Many (map (stat_gauge bucket s) stats))).
  { unfold aggregate_group, grp. fold grp. fold s.
    rewrite (type_is_false s "counter"), (type_is_false s "last"),
      (type_is_true s _ Hty), Hstats by (rewrite Hty; discriminate).
    reflexivity. }
  assert (Hall : aggregate E bucket grp = Ret (map (stat_gauge bucket s) stats)).
  { rewrite aggregate_outputs.
    rewrite (group_by_single mkey k m0 rest).
    + rewrite outputs_of_cons. cbn [snd]. fold grp. rewrite Hblk. cbn.
      rewrite app_nil_r. reflexivity.
    + fold grp. rewrite <- Hgrp. apply List.Forall_forall. intros m Hm.
      apply filter_In in Hm. destruct Hm as [_ Hm]. apply bool_decide_eq_true in Hm. exact Hm. }
  split; [exact Hin|]. split; [exact Hblk|]. split; [apply length_map|].
  split; [exact Hall|]. split; [|split].
  - intros out Hout sv Hsv. rewrite aggregate_outputs in Hout.
    eapply (outputs_of_In bucket _ out k grp _ Hout Hin Hblk). cbn.
    apply in_map, Hsv.
  - intros sv _. split; reflexivity.
  - intros Hlen out Hout. rewrite Hall in Hout. injection Hout as <-.
    rewrite length_map. exact Hlen.
Qed.

(** C8. A group whose kind is none of "counter", "last" and "list" gives
    no output and raises nothing, and what [aggregate] returns (or raises)
    for the other groups of the call is what it returns without the
    group. *)
Theorem unknown_kind_dropped (bucket : Z) (metrics : list Metric)
    (k : option string) (m0 : Metric) (rest : list Metric) :
  let grp := m0 :: rest in
  let s := representative E grp m0 in
  List.filter (fun m : Metric => bool_decide (m !! "mkey" = k)) metrics = grp ->
  s !! "type" <> Some "counter" ->
  s !! "type" <> Some "last" ->
  s !! "type" <> Some "list" ->
  In (k, grp) (group_by mkey metrics) /\
  aggregate_group E bucket grp = Ret Nil /\
  aggregate E bucket grp = Ret [] /\
  aggregate E bucket metrics =
    aggregate E bucket
      (List.filter (fun m : Metric => bool_decide (m !! "mkey" <> k)) metrics).
Proof.
  intros grp s Hgrp Hc Hl Hd.
  assert (Hin : In (k, grp) (group_by mkey metrics)) by (apply group_by_mkey_In, Hgrp).
  assert (Hblk : aggregate_group E bucket grp = Ret Nil).
  { unfold aggregate_group, grp. fold grp. fold s.
    rewrite (type_is_false s _ Hc), (type_is_false s _ Hl), (type_is_false s _ Hd).
    reflexivity. }
  split; [exact Hin|]. split; [exact Hblk|]. split.
  - rewrite aggregate_outputs.
    rewrite (group_by_single mkey k m0 rest).
    + rewrite outputs_of_cons. cbn [snd]. fold grp. rewrite Hblk. reflexivity.
    + fold grp. rewrite <- Hgrp. apply List.Forall_forall. intros m Hm.
      apply filter_In in Hm. destruct Hm as [_ Hm]. apply bool_decide_eq_true in Hm. exact Hm.
  - rewrite !aggregate_outputs, (group_by_filter mkey k metrics).
    apply outputs_of_drop_nil. intros g Hg.
    apply In_group_by in Hg. cbv beta in Hg. rewrite Hgrp in Hg. subst g. exact Hblk.
Qed.

(** *** Failures of one consumer in a snapshot *)

Lemma count_events_app p evs1 evs2 :
  count_events p (evs1 ++ evs2) = (count_events p evs1 + count_events p evs2)%nat.
Proof. unfold count_events. rewrite List.filter_app, length_app. reflexivity. Qed.

(** What the block of [each] does, by the way it ends. *)
Lemma process_group_cases bucket g :
  match group_outcome E bucket g with
  | Raise e =>
      process_group E bucket g = rescue (fst g) e \/
      exists n, process_group E bucket g =
                  Counted n "outlet.librato.metrics" :: rescue (fst g) e
  | Ret (Some (c, q)) =>
      process_group E bucket g =
        [Counted (Z.of_nat (length q)) "outlet.librato.metrics"; Submitted c q]
  | Ret None => process_group E bucket g = []
  end.
Proof.
  unfold group_outcome, process_group.
  destruct (librato_client E (fst g)) as [client|e]; [|left; reflexivity].
  cbn. destruct (aggregate E bucket (snd g)) as [q|e]; [|left; reflexivity].
  cbn. destruct (0 <? Z.of_nat (length q)); [|reflexivity].
  destruct (q_submit E client q) as [[]|e]; cbn; [reflexivity|].
  right. eexists. reflexivity.
Qed.

Lemma process_group_counts bucket g :
  count_events is_submission (process_group E bucket g)
    = (if group_submits E bucket g then 1 else 0)%nat /\
  count_events is_logged_error (process_group E bucket g)
    = (if group_fails E bucket g then 1 else 0)%nat /\
  count_events is_counted_error (process_group E bucket g)
    = (if group_fails E bucket g then 1 else 0)%nat.
Proof.
  pose proof (process_group_cases bucket g) as H.
  unfold group_submits, group_fails.
  destruct (group_outcome E bucket g) as [[[c q]|]|e].
  - rewrite H. repeat split; reflexivity.
  - rewrite H. repeat split; reflexivity.
  - destruct H as [->|[n ->]]; repeat split; reflexivity.
Qed.

Lemma flat_map_counts bucket groups :
  let evs := flat_map (process_group E bucket) groups in
  count_events is_submission evs
    = length (List.filter (group_submits E bucket) groups) /\
  count_events is_logged_error evs
    = length (List.filter (group_fails E bucket) groups) /\
  count_events is_counted_error evs
    = length (List.filter (group_fails E bucket) groups).
Proof.
  induction groups as [|g groups IH]; [repeat split; reflexivity|].
  cbn [flat_map List.filter]. cbv zeta in *. rewrite !count_events_app.
  destruct IH as (-> & -> & ->).
  destruct (process_group_counts bucket g) as (-> & -> & ->).
  destruct (group_submits E bucket g), (group_fails E bucket g); repeat split; reflexivity.
Qed.

Lemma filter_partition_length {A} (p q r : A -> bool) (l : list A) :
  (forall x, In x l -> (if p x then 1 else 0) + (if q x then 1 else 0)
                         + (if r x then 1 else 0) = 1)%nat ->
  (length (List.filter p l) + length (List.filter q l) + length (List.filter r l)
   = length l)%nat.
Proof.
  induction l as [|x l IH]; intros H; [reflexivity|].
  cbn [List.filter]. pose proof (H x (or_introl eq_refl)) as Hx.
  assert (IH' := IH (fun y Hy => H y (or_intror Hy))).
  destruct (p x), (q x), (r x); cbn [length] in *; lia.
Qed.

(** C3, as the code has it. In a snapshot over the consumer groups
    [groups], a group whose lookup, aggregation or submission raises is
    counted once in the self-metric [outlet.metric-post-error] and logged
    once with its consumer id and the error; the snapshot goes on and
    returns. Every other group whose batch is not empty is submitted once;
    a group whose batch is empty is not submitted. So with one failing
    group and no empty batch, there are [N - 1] submissions. *)
Theorem snapshot_isolates_failures (partition max bucket : Z)
    (groups : list (option string * list Metric)) :
  tenant_groups E partition max bucket = Ret groups ->
  exists evs,
    snapshot E partition max bucket = Ret evs /\
    count_events is_submission evs
      = length (List.filter (group_submits E bucket) groups) /\
    count_events is_logged_error evs
      = length (List.filter (group_fails E bucket) groups) /\
    count_events is_counted_error evs
      = length (List.filter (group_fails E bucket) groups) /\
    (forall g e, In g groups -> group_outcome E bucket g = Raise e ->
                 In (ErrorLogged (fst g) e) evs) /\
    (forall g c q, In g groups -> group_outcome E bucket g = Ret (Some (c, q)) ->
                   In (Submitted c q) evs /\ q <> []) /\
    (length (List.filter (group_fails E bucket) groups) = 1%nat ->
     (forall g, In g groups -> group_outcome E bucket g <> Ret None) ->
     count_events is_submission evs = (length groups - 1)%nat).
Proof.
  intros Hgroups. exists (flat_map (process_group E bucket) groups).
  destruct (flat_map_counts bucket groups) as (Hs & Hl & Hc).
  split; [unfold snapshot; rewrite Hgroups; reflexivity|].
  split; [exact Hs|]. split; [exact Hl|]. split; [exact Hc|]. split; [|split].
  - intros g e Hg He. apply in_flat_map. exists g. split; [exact Hg|].
    pose proof (process_group_cases bucket g) as H. rewrite He in H.
    destruct H as [->|[n ->]]; cbn; auto.
  - intros g c q Hg Hq. split.
    + apply in_flat_map. exists g. split; [exact Hg|].
      pose proof (process_group_cases bucket g) as H. rewrite Hq in H.
      rewrite H. cbn. auto.
    + unfold group_outcome in Hq.
      destruct (librato_client E (fst g)); [|discriminate]. cbn in Hq.
      destruct (aggregate E bucket (snd g)) as [q'|]; [|discriminate]. cbn in Hq.
      destruct q' as [|x q']; [discriminate|].
      destruct (q_submit E _ _); [|discriminate]. cbn in Hq.
      injection Hq as _ <-. discriminate.
  - intros Hone Hnonempty. rewrite Hs.
    pose proof (filter_partition_length (group_submits E bucket) (group_fails E bucket)
                  (group_idle E bucket) groups) as Hp.
    assert (Hnone : length (List.filter (group_idle E bucket) groups) = 0%nat).
    { apply length_zero_iff_nil. clear -Hnonempty.
      induction groups as [|g gs IH]; [reflexivity|]. cbn [List.filter].
      assert (Hg : group_idle E bucket g = false).
      { unfold group_idle. pose proof (Hnonempty g (or_introl eq_refl)) as Hn.
        destruct (group_outcome E bucket g) as [[|]|]; [reflexivity|contradiction|reflexivity]. }
      rewrite Hg. apply IH. intros g' Hg'. apply Hnonempty. right. exact Hg'. }
    rewrite Hone, Hnone in Hp.
    assert (Hsum : (length (List.filter (group_submits E bucket) groups) + 1 + 0
                    = length groups)%nat).
    { apply Hp. intros g _. unfold group_submits, group_fails, group_idle.
      destruct (group_outcome E bucket g) as [[|]|]; reflexivity. }
    lia.
Qed.


End WithEnv.

Import OutletExamples.

Lemma partition_assignment_witness :
  retained_keys ex_env 1 2 ["1:120:u1"; "2:120:u4"; "3:120:u5"] =
    Ret ["1:120:u1"; "3:120:u5"] /\
  retained_keys ex_env 0 2 ["1:120:u1"; "2:120:u4"; "3:120:u5"] =
    Ret ["2:120:u4"].
Proof.
  destruct (partition_assignment ex_env 2 ["1:120:u1"; "2:120:u4"; "3:120:u5"])
    as [H _].
  - lia.
  - repeat constructor; eexists; vm_compute; reflexivity.
  - rewrite !H. split; vm_compute; reflexivity.
Defined.


Lemma counter_group_sum_witness :
  aggregate ex_env 120 ex_counter_group =
    Ret [mkGauge "hits.count" (Some "web.1") "gauge" (Some "ms") 120 6%float].
Proof.
  destruct (counter_group_sum ex_env 120 ex_counter_group (Some "1")
              (<["mkey" := "1"]> (sample_of "alice" "hits" "counter" "1"))
              [ <["mkey" := "1"]> (sample_of "alice" "hits" "counter" "2");
                <["mkey" := "1"]> (sample_of "alice" "hits" "counter" "3") ]
              1%float [2%float; 3%float]) as (_ & _ & H & _).
  - vm_compute. reflexivity.
  - vm_compute. reflexivity.
  - vm_compute. reflexivity.
  - etransitivity; [exact H|]. vm_compute. reflexivity.
Defined.


Lemma list_group_statistics_witness :
  aggregate ex_env 180 ex_list_group =
    Ret [mkGauge "size.min" (Some "web.1") "gauge" (Some "ms") 180 7%float;
         mkGauge "size.max" (Some "web.1") "gauge" (Some "ms") 180 9%float].
Proof.
  destruct (list_group_statistics ex_env 180 ex_list_group (Some "7")
              (<["mkey" := "7"]> (sample_of "erin" "size" "list" "7"))
              [ <["mkey" := "7"]> (sample_of "erin" "size" "list" "9") ]
              [("min", 7%float); ("max", 9%float)]) as (_ & _ & _ & H & _).
  - vm_compute. reflexivity.
  - vm_compute. reflexivity.
  - vm_compute. reflexivity.
  - etransitivity; [exact H|]. vm_compute. reflexivity.
Defined.

Lemma unknown_kind_dropped_witness :
  aggregate ex_env 120 (ex_counter_group ++ ex_bogus_group) =
    Ret [mkGauge "hits.count" (Some "web.1") "gauge" (Some "ms") 120 6%float].
Proof.
  destruct (unknown_kind_dropped ex_env 120 (ex_counter_group ++ ex_bogus_group)
              (Some "5") (<["mkey" := "5"]> (sample_of "dave" "queue" "bogus" "6")) [])
    as (_ & _ & _ & H).
  - vm_compute. reflexivity.
  - vm_compute. discriminate.
  - vm_compute. discriminate.
  - vm_compute. discriminate.
  - etransitivity; [exact H|]. vm_compute. reflexivity.
Defined.


Lemma snapshot_isolates_failures_witness :
  exists evs,
    snapshot ex_env 1 2 180 = Ret evs /\
    count_events is_submission evs = 1%nat /\
    count_events is_logged_error evs = 1%nat /\
    count_events is_counted_error evs = 1%nat /\
    In (ErrorLogged (Some "erin") (StandardError "no such consumer")) evs.
Proof.
  assert (Hg : tenant_groups ex_env 1 2 180 = Ret ex_groups) by (vm_compute; reflexivity).
  destruct (snapshot_isolates_failures ex_env 1 2 180 ex_groups Hg)
    as (evs & Hevs & Hs & Hl & Hc & Herr & _).
  exists evs. split; [exact Hevs|].
  split; [rewrite Hs; vm_compute; reflexivity|].
  split; [rewrite Hl; vm_compute; reflexivity|].
  split; [rewrite Hc; vm_compute; reflexivity|].
  apply (Herr (Some "erin", ex_list_group)).
  - left. reflexivity.
  - vm_compute. reflexivity.
Defined.

(** C3, as stated, fails: of three consumers, one fails and one has
    samples of an unknown kind only, hence an empty batch, and there is one
    submission and not two. *)
Lemma failing_tenant_fewer_submissions :
  exists groups evs,
    tenant_groups ex_env 1 2 180 = Ret groups /\
    snapshot ex_env 1 2 180 = Ret evs /\
    length groups = 3%nat /\
    length (List.filter (group_fails ex_env 180) groups) = 1%nat /\
    count_events is_submission evs <> (length groups - 1)%nat.
Proof.
  eexists. eexists. split; [vm_compute; reflexivity|].
  split; [vm_compute; reflexivity|].
  split; [reflexivity|]. split; [vm_compute; reflexivity|].
  vm_compute. discriminate.
Qed.

End OutletFacts.

(** ** The auth resolver *)

Module UtilsFacts.

Import utils StrFacts.

Lemma split_has_char sep s :
  Str.has_char sep s = true -> exists u p tl, Str.split sep s = u :: p :: tl.
Proof.
  induction s as [|a r IH]; [discriminate|]. cbn [Str.has_char]. rewrite split_String.
  destruct (Ascii.eqb a sep); cbn [orb].
  - intros _. destruct (Str.split sep r) as [|p tl] eqn:Hr;
      [exfalso; exact (split_nonempty _ _ Hr)|]. eauto.
  - intros Hr. destruct (IH Hr) as (u & p & tl & ->). eauto.
Qed.

Section WithKeys.

Variable VerifyAndDecrypt : string -> option string.

Lemma length_pos_iff (s : string) :
  (0 <? Z.of_nat (String.length s)) = true <-> s <> "".
Proof.
  destruct s; cbn; split; intros H; try discriminate; try reflexivity; congruence.
Qed.

Lemma inline_creds_resolved part0 :
  inline_creds part0 =
    if decide (part0 = "") then Return "" "" None
    else
      let d := base64.DecodeString part0 in
      Return (field 0 (Str.split ":" (fst d))) (field 1 (Str.split ":" (fst d)))
             (CorruptInput <$> snd d).
Proof.
  unfold inline_creds. destruct part0 as [|a r].
  - reflexivity.
  - cbn [String.length]. destruct (decide _) as [Heq|_]; [discriminate|].
    replace (0 <? Z.of_nat (S (String.length r))) with true
      by (symmetry; apply Z.ltb_lt; lia).
    destruct (base64.DecodeString (String a r)) as [d e]. cbn [fst snd].
    destruct (Str.split ":" d) as [|u [|p tl]] eqn:Hs; [|reflexivity..].
    exfalso. exact (split_nonempty _ _ Hs).
Qed.

(** C4, as the code has it. Past steps 1 to 3, and unless a second field
    is read that is not there (a payload that is "l2met" without a colon,
    a token whose message has no colon), [ParseAuth] returns a pair. The
    error is [nil] in the sentinel branch, for a token that verifies and
    for an empty first field; otherwise the first field is decoded as
    base64 and the error of that decoding is returned with the pair: it is
    not [nil] when the first field is not valid base64. *)
Theorem ParseAuth_after_decoding (r : Request) (header0 : string)
    (more : list string) (scheme cred userPass : string) :
  Header r !! "Authorization" = Some (header0 :: more) ->
  Str.split2 " " header0 = [scheme; cred] ->
  base64.DecodeString cred = (userPass, None) ->
  Str.split ":" userPass <> ["l2met"] ->
  (forall s, sentinel (Str.split ":" userPass) = false ->
             VerifyAndDecrypt userPass = Some s -> Str.has_char ":" s = true) ->
  ParseAuth VerifyAndDecrypt r = resolved VerifyAndDecrypt userPass /\
  exists user pass err,
    ParseAuth VerifyAndDecrypt r = Return user pass err /\
    (err <> None <->
     sentinel (Str.split ":" userPass) = false /\
     VerifyAndDecrypt userPass = None /\
     field 0 (Str.split ":" userPass) <> "" /\
     snd (base64.DecodeString (field 0 (Str.split ":" userPass))) <> None).
Proof.
  intros Hhdr Hsplit Hdec Hslip1 Hslip2.
  assert (Hres : ParseAuth VerifyAndDecrypt r = resolved VerifyAndDecrypt userPass).
  { unfold ParseAuth, resolved. rewrite Hhdr, Hsplit, Hdec.
    assert (Hinline : forall part0 rest,
              Str.split ":" userPass = part0 :: rest ->
              sentinel (part0 :: rest) = false ->
              signed_or_inline VerifyAndDecrypt userPass part0 =
              match VerifyAndDecrypt userPass with
              | Some s => Return (field 0 (Str.split ":" s)) (field 1 (Str.split ":" s)) None
              | None =>
                  if decide (field 0 (part0 :: rest) = "") then Return "" "" None
                  else
                    let d := base64.DecodeString (field 0 (part0 :: rest)) in
                    Return (field 0 (Str.split ":" (fst d)))
                           (field 1 (Str.split ":" (fst d))) (CorruptInput <$> snd d)
              end).
    { intros part0 rest Hp Hs. unfold signed_or_inline.
      destruct (VerifyAndDecrypt userPass) as [s|] eqn:Hv.
      - rewrite Hp in Hslip2. destruct (split_has_char ":" s (Hslip2 s Hs eq_refl))
          as (u & p & tl & ->). reflexivity.
      - apply inline_creds_resolved. }
    destruct (Str.split ":" userPass) as [|part0 rest] eqn:Hparts;
      [exfalso; exact (split_nonempty _ _ Hparts)|].
    destruct (decide (part0 = "l2met")) as [->|Hne].
    - destruct rest as [|part1 rest]; [contradiction|].
      cbn [sentinel]. rewrite bool_decide_true by reflexivity. cbn [andb].
      destruct (0 <? Z.of_nat (String.length part1)) eqn:Hlen; [reflexivity|].
      rewrite (Hinline _ _ eq_refl); [reflexivity|].
      cbn [sentinel]. rewrite Hlen. apply andb_false_r.
    - assert (Hs : sentinel (part0 :: rest) = false).
      { destruct rest; [reflexivity|]. cbn [sentinel].
        rewrite bool_decide_false by exact Hne. reflexivity. }
      rewrite Hs. apply (Hinline _ _ eq_refl Hs). }
  split; [exact Hres|]. rewrite Hres. unfold resolved.
  destruct (sentinel (Str.split ":" userPass)).
  { do 3 eexists. split; [reflexivity|]. split; [congruence|]. intros [? _]. discriminate. }
  destruct (VerifyAndDecrypt userPass).
  { do 3 eexists. split; [reflexivity|]. split; [congruence|]. intros (_ & ? & _). discriminate. }
  destruct (decide (field 0 (Str.split ":" userPass) = "")) as [He|He].
  { do 3 eexists. split; [reflexivity|]. split; [congruence|]. intros (_ & _ & ? & _). contradiction. }
  do 3 eexists. split; [reflexivity|].
  destruct (snd (base64.DecodeString (field 0 (Str.split ":" userPass)))); cbn.
  - split; [intros _; repeat split; auto; discriminate | discriminate].
  - split; [congruence | intros (_ & _ & _ & ?); congruence].
Qed.

End WithKeys.

(** C5. On the payload "l2met" without a colon, the test of step 4 reads
    [parts[1]], which is not there: [ParseAuth] panics, whatever the keys,
    and does not go on to the later schemes. *)
Theorem sentinel_without_colon_panics (VerifyAndDecrypt : string -> option string) :
  base64.DecodeString "bDJtZXQ=" = ("l2met", None) /\
  Str.split ":" "l2met" = ["l2met"] /\
  ParseAuth VerifyAndDecrypt (request_with "Basic bDJtZXQ=") = Panic "index out of range".
Proof. repeat split. Qed.

Lemma ParseAuth_after_decoding_witness :
  ParseAuth no_keys (request_with "Basic bDJtZXQ6YWJjMTIz") = Return "l2met" "abc123" None /\
  ParseAuth no_keys (request_with "Basic WW05aU9uQjNNZz09Omlnbm9yZWQ=") = Return "bob" "pw2" None.
Proof.
  split.
  - destruct (ParseAuth_after_decoding no_keys (request_with "Basic bDJtZXQ6YWJjMTIz")
                "Basic bDJtZXQ6YWJjMTIz" [] "Basic" "bDJtZXQ6YWJjMTIz" "l2met:abc123")
      as [H _]; [reflexivity | reflexivity | reflexivity | discriminate | discriminate |].
    rewrite H. reflexivity.
  - destruct (ParseAuth_after_decoding no_keys
                (request_with "Basic WW05aU9uQjNNZz09Omlnbm9yZWQ=")
                "Basic WW05aU9uQjNNZz09Omlnbm9yZWQ=" [] "Basic"
                "WW05aU9uQjNNZz09Omlnbm9yZWQ=" "Ym9iOnB3Mg==:ignored")
      as [H _]; [reflexivity | reflexivity | reflexivity | discriminate | discriminate |].
    rewrite H. reflexivity.
Defined.

(** C4, as stated, fails: the payload "justauser" passes steps 1 to 3, is
    no sentinel and no token, and [ParseAuth] returns the error of decoding
    it as base64, with a user that is not "justauser". *)
Lemma justauser_returns_error :
  base64.DecodeString "anVzdGF1c2Vy" = ("justauser", None) /\
  exists user,
    ParseAuth no_keys (request_with "Basic anVzdGF1c2Vy")
      = Return user "" (Some (CorruptInput 8)) /\
    user <> "justauser".
Proof.
  split; [reflexivity|]. eexists. split; [reflexivity|]. discriminate.
Qed.

End UtilsFacts.

(** ** The channel over a run of calls *)

Module MetchanHistory.

Import bucket metchan MetchanExamples MetchanFacts.

Lemma flush_fields order c :
  FlushInterval (flush order c) = FlushInterval c /\
  Enabled (flush order c) = Enabled c /\
  appName (flush order c) = appName c /\
  source (flush order c) = source c.
Proof. rewrite flush_sends. repeat split. Qed.

Lemma FlushInterval_step c op : FlushInterval (step c op) = FlushInterval c.
Proof.
  destruct op as [now name v|now user|order|W]; cbn [step].
  - unfold Measure. destruct (negb (Enabled c)); reflexivity.
  - reflexivity.
  - apply flush_fields.
  - reflexivity.
Qed.

Lemma window_step c op now : window (step c op) now = window c now.
Proof. unfold window. rewrite FlushInterval_step. reflexivity. Qed.

Lemma add_well_kept c now i v : well_kept c -> well_kept (add c now i v).
Proof.
  intros Hc k b Hb. destruct (decide (key_of i = k)) as [<-|Hk].
  - destruct (Buffer c !! key_of i) as [b0|] eqn:Hb0.
    + destruct (Hc _ _ Hb0) as (Hkey & _ & _).
      destruct (decide (Time (id b0) = window c now)) as [Ht|Ht].
      * rewrite (add_same_window c now i v b0 Hb0 Ht) in Hb. injection Hb as <-.
        cbn. split; [exact Hkey|]. split; [intros H; destruct (Vals b0); discriminate|].
        exists now. exact Ht.
      * rewrite (add_rollover c now i v b0 Hb0 Ht) in Hb. injection Hb as <-.
        cbn. split; [exact Hkey|]. split; [discriminate|]. exists now. reflexivity.
    + unfold add in Hb. cbn in Hb. rewrite lookup_insert_eq, Hb0 in Hb.
      injection Hb as <-. cbn. fold (window c now).
      destruct (decide (Time i = window c now)) as [Ht|Ht]; cbn.
      * split; [reflexivity|]. split; [discriminate|]. exists now. exact Ht.
      * split; [reflexivity|]. split; [discriminate|]. exists now. reflexivity.
  - rewrite add_other_key in Hb by exact Hk. apply (Hc _ _ Hb).
Qed.

Lemma step_well_kept c op : well_kept c -> well_kept (step c op).
Proof.
  intros Hc. destruct op as [now name v|now user|order|W]; cbn [step].
  - unfold Measure. destruct (negb (Enabled c)); cbn [fst]; [exact Hc|].
    apply add_well_kept, Hc.
  - apply add_well_kept, Hc.
  - intros k b Hb. rewrite Buffer_flush in Hb.
    destruct (Hc _ _ Hb) as (H1 & H2 & now & H3).
    split; [exact H1|]. split; [exact H2|]. exists now.
    unfold window. rewrite (proj1 (flush_fields order c)). exact H3.
  - exact Hc.
Qed.

Lemma run_well_kept ops : forall c, well_kept c -> well_kept (run c ops).
Proof.
  induction ops as [|op ops IH]; intros c Hc; [exact Hc|].
  cbn. apply IH, step_well_kept, Hc.
Qed.

Lemma empty_well_kept c : Buffer c = ∅ -> well_kept c.
Proof. intros He k b Hb. rewrite He, lookup_empty in Hb. discriminate. Qed.

Lemma metric_of_sound c k b :
  well_kept c -> Buffer c !! k = Some b -> sound_metric c (metric_of b).
Proof.
  intros Hc Hb. destruct (Hc _ _ Hb) as (_ & Hv & now & Ht). split.
  - cbn. unfold Count. destruct (Vals b); [contradiction|]. cbn [length]. lia.
  - exists now. cbn. rewrite Ht. reflexivity.
Qed.

Lemma step_outbox c0 c op :
  FlushInterval c = FlushInterval c0 ->
  well_kept c -> visits_all op ->
  (forall m, m ∈ outbox c -> m ∈ outbox c0 \/ sound_metric c0 m) ->
  forall m, m ∈ outbox (step c op) -> m ∈ outbox c0 \/ sound_metric c0 m.
Proof.
  intros Hw Hc Hord Hout m Hm.
  destruct op as [now name v|now user|order|W]; cbn [step] in Hm.
  - unfold Measure in Hm. destruct (negb (Enabled c)); cbn [fst] in Hm; auto.
  - auto.
  - rewrite flush_sends in Hm. cbn in Hm. apply elem_of_app in Hm.
    destruct Hm as [Hm|Hm]; [auto|]. right.
    apply list_elem_of_fmap in Hm. destruct Hm as ([k b] & -> & Hkb).
    rewrite (Hord (Buffer c)) in Hkb. apply elem_of_map_to_list in Hkb.
    destruct (metric_of_sound c k b Hc Hkb) as (H1 & now & H2).
    split; [exact H1|]. exists now. unfold window in *. rewrite <- Hw. exact H2.
  - cbn in Hm. inversion Hm.
Qed.

Lemma run_outbox c0 ops : forall c,
  FlushInterval c = FlushInterval c0 ->
  well_kept c -> Forall visits_all ops ->
  (forall m, m ∈ outbox c -> m ∈ outbox c0 \/ sound_metric c0 m) ->
  forall m, m ∈ outbox (run c ops) -> m ∈ outbox c0 \/ sound_metric c0 m.
Proof.
  induction ops as [|op ops IH]; intros c Hw Hc Hops Hout; [exact Hout|].
  inversion Hops as [|? ? Hop Hrest]; subst. cbn. apply IH.
  - rewrite FlushInterval_step. exact Hw.
  - apply step_well_kept, Hc.
  - exact Hrest.
  - apply (step_outbox c0 c op Hw Hc Hop Hout).
Qed.

(** X1. On a channel that starts with an empty buffer, as [New] makes it,
    and through any history of [Measure], [CountReq], [flush] and poster
    turns, every bucket sits under the key of its own name and source and
    holds at least one value, so that [flush] never sends a metric with
    count 0. *)
Theorem flushed_buckets_hold_values (c : Channel) (ops : list Op) :
  Buffer c = ∅ ->
  Forall visits_all ops ->
  well_kept (run c ops) /\
  forall m, m ∈ outbox (run c ops) -> m ∈ outbox c \/ 1 <= lmCount m.
Proof.
  intros He Hops. split; [apply run_well_kept, empty_well_kept, He|].
  intros m Hm.
  destruct (run_outbox c ops c eq_refl (empty_well_kept c He) Hops
              (fun m H => or_introl H) m Hm) as [H|[H _]]; auto.
Qed.

Lemma Unix_window_aligned c now k :
  FlushInterval c = k * 1000000000 -> 0 < k -> (k | 86400) ->
  GoTime.Unix (window c now) mod k = 0.
Proof.
  intros Hd Hk [j Hj]. unfold window, GoTime.Truncate, GoTime.Unix, GoTime.Now.
  rewrite Hd. destruct (k * 1000000000 <=? 0) eqn:Hle; [apply Z.leb_le in Hle; lia|].
  cbn [GoTime.abs_ns].
  assert (Hq : now - now mod (k * 1000000000) = k * (now / (k * 1000000000)) * 1000000000).
  { pose proof (Z.div_mod now (k * 1000000000) ltac:(lia)). lia. }
  rewrite Hq, Z.div_mul by lia.
  unfold GoTime.unixToInternal. rewrite Hj.
  apply Z.mod_divide; [lia|].
  apply Z.divide_sub_r; [apply Z.divide_factor_l|].
  rewrite Z.mul_assoc. apply Z.divide_factor_r.
Qed.

(** X2. When the flush interval is a whole number [k] of seconds that
    divides a day (it is one minute unless the field is changed), the
    [measure_time] of every metric that [flush] sends is a multiple of [k]:
    the windows are aligned on the Unix clock, although [Truncate] counts
    from the year 1. *)
Theorem measure_time_aligned (c : Channel) (ops : list Op) (k : Z) :
  Buffer c = ∅ ->
  Forall visits_all ops ->
  FlushInterval c = k * 1000000000 -> 0 < k -> (k | 86400) ->
  forall m, m ∈ outbox (run c ops) -> m ∈ outbox c \/ lmTime m mod k = 0.
Proof.
  intros He Hops Hd Hk Hdiv m Hm.
  destruct (run_outbox c ops c eq_refl (empty_well_kept c He) Hops
              (fun m H => or_introl H) m Hm) as [H|[_ [now H]]]; [auto|].
  right. rewrite H. apply Unix_window_aligned; assumption.
Qed.


Lemma add_keeps_names c now i v k b :
  Buffer c !! k = Some b ->
  exists b', Buffer (add c now i v) !! k = Some b' /\ same_names (id b') (id b).
Proof.
  intros Hb. destruct (decide (key_of i = k)) as [<-|Hk].
  - destruct (decide (Time (id b) = window c now)) as [Ht|Ht].
    + rewrite (add_same_window c now i v b Hb Ht). eexists. split; [reflexivity|].
      repeat split.
    + rewrite (add_rollover c now i v b Hb Ht). eexists. split; [reflexivity|].
      repeat split.
  - rewrite add_other_key by exact Hk. exists b. split; [exact Hb|]. repeat split.
Qed.

Lemma step_keeps_names c op k b :
  Buffer c !! k = Some b ->
  exists b', Buffer (step c op) !! k = Some b' /\ same_names (id b') (id b).
Proof.
  intros Hb. destruct op as [now name v|now user|order|W]; cbn [step].
  - unfold Measure. destruct (negb (Enabled c)); cbn [fst].
    + exists b. split; [exact Hb|]. repeat split.
    + apply add_keeps_names, Hb.
  - apply add_keeps_names, Hb.
  - rewrite Buffer_flush. exists b. split; [exact Hb|]. repeat split.
  - exists b. split; [exact Hb|]. repeat split.
Qed.

(** X3. A bucket, once made, is never removed, and it keeps the name, the
    source, the units and the resolution of the identity it was made for:
    the identity of a later call with the same key is not looked at, so
    that call is recorded under the first identity. *)
Theorem bucket_kept_under_first_identity (c : Channel) (ops : list Op)
    (k : string) (b : Bucket) :
  Buffer c !! k = Some b ->
  exists b', Buffer (run c ops) !! k = Some b' /\ same_names (id b') (id b).
Proof.
  revert c b. induction ops as [|op ops IH]; intros c b Hb.
  - exists b. split; [exact Hb|]. repeat split.
  - cbn. destruct (step_keeps_names c op k b Hb) as (b1 & Hb1 & H1).
    destruct (IH _ _ Hb1) as (b2 & Hb2 & H2). exists b2. split; [exact Hb2|].
    destruct H1 as (? & ? & ? & ?), H2 as (? & ? & ? & ?).
    repeat split; congruence.
Qed.

(** [add] always changes the buffer. *)
Lemma add_changes_buffer c now i v : Buffer (add c now i v) <> Buffer c.
Proof.
  intros Heq. assert (H : Buffer (add c now i v) !! key_of i = Buffer c !! key_of i)
    by (rewrite Heq; reflexivity).
  destruct (Buffer c !! key_of i) as [b|] eqn:Hb.
  - destruct (decide (Time (id b) = window c now)) as [Ht|Ht].
    + rewrite (add_same_window c now i v b Hb Ht) in H. injection H as H.
      apply (f_equal Vals) in H. cbn in H. apply (f_equal (@length _)) in H.
      rewrite length_app in H. cbn in H. lia.
    + rewrite (add_rollover c now i v b Hb Ht) in H. injection H as H.
      apply (f_equal (fun b => Time (id b))) in H. cbn in H. congruence.
  - unfold add in H. cbn in H. rewrite lookup_insert_eq in H. discriminate.
Qed.

Lemma measure_all_disabled c name obs : Enabled c = false -> measure_all c name obs = c.
Proof.
  intros Hd. induction obs as [|o obs IH]; [reflexivity|].
  cbn. unfold Measure at 2. rewrite Hd. cbn. exact IH.
Qed.

(** X4. On a channel that is not enabled, [Measure] records nothing and
    leaves the channel as it is, however often it is called, but
    [CountReq], which does not look at [Enabled], still fills the buffer,
    which no [flush] is there to send. *)
Theorem disabled_channel_still_counts (c : Channel) :
  Enabled c = false ->
  (forall name obs, measure_all c name obs = c) /\
  (forall now name v, snd (Measure c now name v)
     = if verbose c then [PrintMeasure (source c) name v] else []) /\
  (forall now user, Buffer (CountReq c now user) <> Buffer c).
Proof.
  intros Hd. split; [intros; apply measure_all_disabled, Hd|]. split.
  - intros now name v. unfold Measure. rewrite Hd. reflexivity.
  - intros now user. apply add_changes_buffer.
Qed.

Lemma replace_at_app s t : replace_at (s +:+ t) = replace_at s +:+ replace_at t.
Proof.
  induction s as [|a s IH]; [reflexivity|].
  cbn [String.append replace_at]. change (String a s +:+ t) with (String a (s +:+ t)).
  cbn [replace_at]. rewrite IH. destruct (Ascii.eqb a "@"); reflexivity.
Qed.

Lemma replace_at_clean s : Str.has_char "@" (replace_at s) = false.
Proof.
  induction s as [|a s IH]; [reflexivity|]. cbn [replace_at].
  destruct (Ascii.eqb a "@") eqn:Ha.
  - cbn. exact IH.
  - cbn [Str.has_char]. rewrite Ha. exact IH.
Qed.

Lemma replace_at_id s : Str.has_char "@" s = false -> replace_at s = s.
Proof.
  induction s as [|a s IH]; [reflexivity|]. cbn [Str.has_char replace_at].
  intros H. apply orb_false_iff in H. destruct H as [Ha Hs]. rewrite Ha, (IH Hs).
  reflexivity.
Qed.

(** X5. [CountReq] records a request under a source without [@]: every
    [@] of the user is written [_at_]. The bucket of that source, and no
    other, is written: it carries the window of the call and its values
    are those it had in that window, none when it is new or held another
    window, followed by one [1.0] for the request. A user without [@] is
    its own source, and two users that differ only in [@] against [_at_]
    are counted in one bucket. *)
Theorem CountReq_source_sanitized (c : Channel) (now : Z) :
  (forall user,
     let k := (appName c +:+ "." +:+ "receiver.requests") +:+ ":" +:+ replace_at user in
     (exists b,
        Buffer (CountReq c now user) !! k = Some b /\
        Time (id b) = window c now /\
        Vals b = match Buffer c !! k with
                 | Some b0 => if decide (Time (id b0) = window c now)
                              then Vals b0 ++ [1%float] else [1%float]
                 | None => [1%float]
                 end) /\
     (forall k', k' <> k -> Buffer (CountReq c now user) !! k' = Buffer c !! k')) /\
  (forall user, Str.has_char "@" (replace_at user) = false) /\
  (forall user, Str.has_char "@" user = false -> replace_at user = user) /\
  (forall s1 s2, CountReq c now (s1 +:+ "@" +:+ s2) = CountReq c now (s1 +:+ "_at_" +:+ s2)).
Proof.
  split; [|split; [exact replace_at_clean|split; [exact replace_at_id|]]].
  - intros user k. unfold CountReq.
    set (i := mkId GoTime.zero (FlushInterval c)
                   (appName c +:+ "." +:+ "receiver.requests") "requests"
                   (replace_at user)).
    change k with (key_of i). split.
    + destruct (Buffer c !! key_of i) as [b0|] eqn:Hb.
      * destruct (decide (Time (id b0) = window c now)) as [Ht|Ht].
        -- rewrite (add_same_window c now i _ b0 Hb Ht). eexists.
           split; [reflexivity|]. split; [exact Ht | reflexivity].
        -- rewrite (add_rollover c now i _ b0 Hb Ht). eexists.
           split; [reflexivity|]. split; reflexivity.
      * rewrite (add_fresh c now i _ Hb) by apply window_not_zero. eexists.
        split; [reflexivity|]. split; reflexivity.
    + intros k' Hk. apply add_other_key. congruence.
  - intros s1 s2. unfold CountReq. rewrite !replace_at_app. reflexivity.
Qed.


Lemma window_eq c n1 n2 :
  window c n1 = window c n2 <-> same_window (FlushInterval c) n1 n2 = true.
Proof.
  unfold window, GoTime.Truncate, GoTime.Now, same_window.
  set (d := FlushInterval c). cbn [GoTime.abs_ns GoTime.loc].
  destruct (d <=? 0) eqn:Hle.
  - apply Z.leb_le in Hle. replace (0 <? d) with false by (symmetry; apply Z.ltb_ge; lia).
    rewrite Z.eqb_eq. split; [intros H; injection H; auto | intros ->; reflexivity].
  - apply Z.leb_gt in Hle. replace (0 <? d) with true by (symmetry; apply Z.ltb_lt; lia).
    rewrite Z.eqb_eq.
    pose proof (Z.div_mod n1 d ltac:(lia)). pose proof (Z.div_mod n2 d ltac:(lia)).
    split.
    + intros Heq. injection Heq as Heq. nia.
    + intros Heq. f_equal. rewrite Heq in *. lia.
Qed.

(** X6. Two calls of [add] on a new key: the second value joins the first
    exactly when the two readings of the clock lie in one window, that is
    have the same quotient by the flush interval; any other reading, a
    clock that was set back included, drops the first value. With a flush
    interval that is not positive only equal readings share a window. *)
Theorem second_add_joins_or_resets (c : Channel) (n1 n2 : Z) (i1 i2 : Id)
    (v1 v2 : float64) :
  Buffer c !! key_of i1 = None ->
  Time i1 = GoTime.zero ->
  key_of i2 = key_of i1 ->
  exists b,
    Buffer (add (add c n1 i1 v1) n2 i2 v2) !! key_of i1 = Some b /\
    Time (id b) = window c n2 /\
    Vals b = if same_window (FlushInterval c) n1 n2 then [v1; v2] else [v2].
Proof.
  intros Hnone Hzero Hkey.
  assert (H1 : Buffer (add c n1 i1 v1) !! key_of i1
               = Some (mkBucket (with_Time i1 (window c n1)) [v1])).
  { apply add_fresh; [exact Hnone|]. rewrite Hzero. apply window_not_zero. }
  rewrite <- Hkey in H1 |- *.
  destruct (same_window (FlushInterval c) n1 n2) eqn:Hs.
  - apply window_eq in Hs.
    eexists. split; [apply (add_same_window _ n2 i2 v2 _ H1); cbn; exact Hs|].
    split; [cbn; exact Hs | reflexivity].
  - eexists. split; [apply (add_rollover _ n2 i2 v2 _ H1)|].
    + cbn. change (window (add c n1 i1 v1) n2) with (window c n2).
      intros Heq. apply window_eq in Heq. congruence.
    + split; reflexivity.
Qed.

Lemma measure_all_run_adds name obs : forall c,
  Enabled c = true ->
  measure_all c name obs =
    run_adds c (map (fun o => mkCall (fst o) (measure_id c name) (snd o)) obs).
Proof.
  induction obs as [|o obs IH]; intros c He; [reflexivity|].
  cbn [map]. unfold measure_all, run_adds in *. cbn [fold_left].
  unfold Measure at 2. rewrite He. cbn [negb fst call_now call_id call_val].
  fold (measure_id c name). rewrite IH by exact He. reflexivity.
Qed.

Lemma vals_for_measure k i obs :
  key_of i = k ->
  vals_for k (map (fun o : Z * float64 => mkCall (fst o) i (snd o)) obs) = map snd obs.
Proof.
  intros Hk. induction obs as [|o obs IH]; [reflexivity|].
  cbn [map]. rewrite vals_for_cons. cbn [call_id call_val].
  rewrite decide_True by exact Hk. rewrite IH. reflexivity.
Qed.

(** X7. [Measure] called for one name on an enabled channel that has no
    bucket for it, with readings of the clock that lie in one window, and
    then [flush]: the outbox holds the metric named [appName.name], with
    the host as source, the start of the window as time, the number of
    calls as count and the sum, maximum and minimum of the values, in the
    order of the calls. *)
Theorem measured_values_are_flushed (c : Channel) (name : string)
    (order : gmap string Bucket -> list (string * Bucket))
    (o : Z * float64) (obs : list (Z * float64)) :
  Enabled c = true ->
  Buffer c !! key_of (measure_id c name) = None ->
  (forall bs, order bs ≡ₚ map_to_list bs) ->
  Forall (fun o' => same_window (FlushInterval c) (fst o) (fst o') = true) obs ->
  let vs := map snd (o :: obs) in
  mkLibratoMetric (appName c +:+ "." +:+ name)
                  (GoTime.Unix (window c (fst o))) (source c)
                  (Z.of_nat (length vs)) (sum_of vs) (max_of vs) (min_of vs)
    ∈ outbox (flush order (measure_all c name (o :: obs))).
Proof.
  intros He Hnone Hord Hobs vs.
  set (i := measure_id c name) in *.
  set (c1 := add c (fst o) i (snd o)).
  assert (Hrun : measure_all c name (o :: obs)
                 = run_adds c1 (map (fun o' => mkCall (fst o') i (snd o')) obs)).
  { unfold measure_all. cbn [fold_left]. unfold Measure at 2. rewrite He.
    cbn [negb fst]. fold (measure_id c name). fold i. fold c1.
    apply (measure_all_run_adds name obs c1). exact He. }
  assert (H1 : Buffer c1 !! key_of i
               = Some (mkBucket (with_Time i (window c (fst o))) [snd o])).
  { apply add_fresh; [exact Hnone|]. apply window_not_zero. }
  assert (Hb : Buffer (measure_all c name (o :: obs)) !! key_of i
               = Some (mkBucket (with_Time i (window c (fst o))) vs)).
  { rewrite Hrun.
    rewrite (run_adds_in_window _ c1 (key_of i) _ H1).
    - rewrite vals_for_measure by reflexivity. reflexivity.
    - apply List.Forall_forall. intros call Hcall _.
      apply in_map_iff in Hcall. destruct Hcall as (o' & <- & Ho').
      cbn. rewrite List.Forall_forall in Hobs. symmetry.
      apply (window_eq c (fst o) (fst o')), Hobs, Ho'. }
  rewrite flush_sends. cbn [outbox with_outbox]. apply elem_of_app. right.
  apply (flush_sends_bucket order _ _ _ Hord Hb).
Qed.


Lemma flushed_buckets_hold_values_witness :
  Forall (fun m => 1 <= lmCount m) (outbox (run ex_chan ex_ops)).
Proof.
  apply Forall_forall. intros m Hm.
  destruct (flushed_buckets_hold_values ex_chan ex_ops) as [_ H].
  - reflexivity.
  - repeat constructor. intros bs. reflexivity.
  - destruct (H m Hm) as [Hin|Hc]; [inversion Hin | exact Hc].
Defined.

Lemma measure_time_aligned_witness :
  Forall (fun m => lmTime m mod 60 = 0) (outbox (run ex_chan ex_ops)).
Proof.
  apply Forall_forall. intros m Hm.
  destruct (measure_time_aligned ex_chan ex_ops 60) with (m := m) as [Hin|Hc].
  - reflexivity.
  - repeat constructor. intros bs. reflexivity.
  - reflexivity.
  - lia.
  - exists 1440. reflexivity.
  - exact Hm.
  - inversion Hin.
  - exact Hc.
Defined.

Lemma bucket_kept_under_first_identity_witness :
  exists b',
    Buffer (run (CountReq ex_chan 63000000000000000000 "host1")
                [OpMeasure 63000000001000000000 "receiver.requests" 250%float])
      !! "l2met.receiver.requests:host1" = Some b' /\
    Units (id b') = "requests".
Proof.
  destruct (bucket_kept_under_first_identity
              (CountReq ex_chan 63000000000000000000 "host1")
              [OpMeasure 63000000001000000000 "receiver.requests" 250%float]
              "l2met.receiver.requests:host1"
              (mkBucket (mkId (window ex_chan 63000000000000000000) 60000000000
                              "l2met.receiver.requests" "requests" "host1")
                        [1%float]))
    as (b' & Hb' & _ & _ & Hu & _).
  - vm_compute. reflexivity.
  - exists b'. split; [exact Hb' | exact Hu].
Defined.

Lemma disabled_channel_still_counts_witness :
  measure_all ex_chan_off "x" ex_obs = ex_chan_off /\
  Buffer (CountReq ex_chan_off 63000000000000000000 "a@b.c") <> Buffer ex_chan_off.
Proof.
  destruct (disabled_channel_still_counts ex_chan_off) as (Hm & _ & Hc);
    [reflexivity|].
  split; [apply Hm | apply Hc].
Defined.

Lemma CountReq_source_sanitized_witness :
  (exists b,
     Buffer (CountReq (CountReq ex_chan 63000000000000000000 "a@b.c")
                      63000000001000000000 "a_at_b.c")
       !! "l2met.receiver.requests:a_at_b.c" = Some b /\
     Vals b = [1; 1]%float) /\
  replace_at "host1" = "host1" /\
  CountReq ex_chan 63000000000000000000 "a@b.c"
    = CountReq ex_chan 63000000000000000000 "a_at_b.c".
Proof.
  destruct (CountReq_source_sanitized ex_chan 63000000000000000000)
    as (_ & _ & Hid & Heq).
  destruct (CountReq_source_sanitized
              (CountReq ex_chan 63000000000000000000 "a@b.c") 63000000001000000000)
    as (Hrec & _).
  destruct (Hrec "a_at_b.c") as [(b & Hb & _ & Hv) _].
  split; [|split; [apply Hid; reflexivity | apply (Heq "a" "b.c")]].
  exists b. split; [exact Hb | exact Hv].
Defined.

Lemma second_add_joins_or_resets_witness :
  exists b,
    Buffer (add (add ex_chan 63000000001000000000 ex_id 2%float)
                63000000000000000000 ex_id 1%float) !! "l2met.x:host1" = Some b /\
    Vals b = [2; 1]%float.
Proof.
  destruct (second_add_joins_or_resets ex_chan 63000000001000000000
              63000000000000000000 ex_id ex_id 2%float 1%float)
    as (b & Hb & _ & Hv); [reflexivity | reflexivity | reflexivity |].
  exists b. split; [exact Hb | exact Hv].
Defined.

Lemma measured_values_are_flushed_witness :
  mkLibratoMetric "l2met.x" 864403200 "host1" 3 6%float 3%float 1%float
    ∈ outbox (flush map_to_list
                (measure_all ex_chan "x" ((63000000000000000000, 1%float) :: ex_obs))).
Proof.
  pose proof (measured_values_are_flushed ex_chan "x" map_to_list
                (63000000000000000000, 1%float) ex_obs) as H.
  cbv zeta in H.
  replace (mkLibratoMetric "l2met.x" 864403200 "host1" 3 6%float 3%float 1%float)
    with (mkLibratoMetric (appName ex_chan +:+ "." +:+ "x")
            (GoTime.Unix (window ex_chan 63000000000000000000)) (source ex_chan)
            (Z.of_nat (length (map snd ((63000000000000000000, 1%float) :: ex_obs))))
            (sum_of (map snd ((63000000000000000000, 1%float) :: ex_obs)))
            (max_of (map snd ((63000000000000000000, 1%float) :: ex_obs)))
            (min_of (map snd ((63000000000000000000, 1%float) :: ex_obs))))
    by (vm_compute; reflexivity).
  apply H.
  - reflexivity.
  - reflexivity.
  - intros bs. reflexivity.
  - repeat constructor.
Defined.

End MetchanHistory.

(** ** The outlet: keys, samples and batches *)

Module OutletMore.

Import Outlet OutletExamples OutletFacts.

Lemma selectR_cons {A} (p : A -> res bool) (x : A) (r : list A) :
  selectR p (x :: r) =
    (b ← p x; ys ← selectR p r; Ret (if b : bool then x :: ys else ys)).
Proof. reflexivity. Qed.

Lemma selectR_raise {A} (p : A -> res bool) (good : list A) (bad : A)
    (rest : list A) (e : exn) :
  Forall (fun x => exists b, p x = Ret b) good ->
  p bad = Raise e ->
  selectR p (good ++ bad :: rest) = Raise e.
Proof.
  intros Hgood Hbad. induction Hgood as [|x good [b Hb] _ IH].
  - cbn [app]. rewrite selectR_cons, Hbad. reflexivity.
  - cbn [app]. rewrite selectR_cons, Hb, IH. reflexivity.
Qed.

Lemma mapR_raise {A B} (f : A -> res B) (l : list A) (x : A) :
  In x l -> (forall y, f x <> Ret y) -> exists e, mapR f l = Raise e.
Proof.
  induction l as [|a l IH]; intros Hin Hx; [destruct Hin|].
  rewrite mapR_cons. destruct (f a) as [y|e] eqn:Ha; [|exists e; reflexivity].
  destruct Hin as [->|Hin]; [exfalso; exact (Hx y Ha)|].
  destruct (IH Hin Hx) as [e He]. exists e. rewrite He. reflexivity.
Qed.

Section WithEnv.

Variable E : Env.

(** X8. One scanned key whose head is not an integer makes [snapshot]
    raise, out of reach of the [rescue] clause of the consumers: no
    consumer of the partition is worked on, those of the well-formed keys
    included. *)
Theorem malformed_key_aborts_snapshot (partition max bucket : Z)
    (good : list string) (bad : string) (rest : list string) (e : exn) :
  max <> 0 ->
  redis_keys E ("*:" +:+ pretty bucket +:+ ":*") = Ret (good ++ bad :: rest) ->
  Forall (fun key => exists n, Integer_of E (mkey_of key) = Ret n) good ->
  Integer_of E (mkey_of bad) = Raise e ->
  tenant_groups E partition max bucket = Raise e /\
  snapshot E partition max bucket = Raise e.
Proof.
  intros Hmax Hkeys Hgood Hbad.
  assert (Ht : tenant_groups E partition max bucket = Raise e).
  { unfold tenant_groups. rewrite Hkeys. cbn. unfold retained_keys.
    rewrite (selectR_raise _ good bad rest e); [reflexivity| |].
    - eapply List.Forall_impl; [|exact Hgood]. intros key [n Hn].
      eexists. apply (in_partition_int E partition max key n Hmax Hn).
    - unfold in_partition. rewrite Hbad. reflexivity. }
  split; [exact Ht|]. unfold snapshot. rewrite Ht. reflexivity.
Qed.

(** X9. A group of samples that is not empty and whose kind is "last"
    gives one output, named [<name>.last], with the value of the last
    sample of the group; the values of the other samples are not read. *)
Theorem last_group_value (bucket : Z) (metrics : list Metric)
    (k : option string) (m0 : Metric) (rest : list Metric) (v : float64) :
  let grp := m0 :: rest in
  let s := representative E grp m0 in
  List.filter (fun m : Metric => bool_decide (m !! "mkey" = k)) metrics = grp ->
  s !! "type" = Some "last" ->
  Float_of E (List.last grp m0 !! "value") = Ret v ->
  In (k, grp) (group_by mkey metrics) /\
  aggregate_group E bucket grp = Ret (One (stat_gauge bucket s ("last", v))) /\
  aggregate E bucket grp = Ret [stat_gauge bucket s ("last", v)] /\
  forall out, aggregate E bucket metrics = Ret out ->
              In (stat_gauge bucket s ("last", v)) out.
Proof.
  intros grp s Hgrp Hty Hval.
  assert (Hin : In (k, grp) (group_by mkey metrics)) by (apply group_by_mkey_In, Hgrp).
  assert (Hblk : aggregate_group E bucket grp
                 = Ret (One (stat_gauge bucket s ("last", v)))).
  { unfold aggregate_group, grp. fold grp. fold s.
    rewrite (type_is_false s "counter") by (rewrite Hty; discriminate).
    rewrite (type_is_true s _ Hty), Hval. reflexivity. }
  split; [exact Hin|]. split; [exact Hblk|]. split.
  - rewrite aggregate_outputs.
    rewrite (group_by_single mkey k m0 rest).
    + rewrite outputs_of_cons. cbn [snd]. fold grp. rewrite Hblk. reflexivity.
    + fold grp. rewrite <- Hgrp. apply List.Forall_forall. intros m Hm.
      apply filter_In in Hm. destruct Hm as [_ Hm]. apply bool_decide_eq_true in Hm. exact Hm.
  - intros out Hout. rewrite aggregate_outputs in Hout.
    eapply (outputs_of_In E bucket _ out k grp _ Hout Hin Hblk). left. reflexivity.
Qed.

Lemma outputs_of_raise bucket gs (k : option string) g e :
  In (k, g) gs -> aggregate_group E bucket g = Raise e ->
  exists e', outputs_of E bucket gs = Raise e'.
Proof.
  induction gs as [|[k0 g0] gs IH]; intros Hin Hg; [destruct Hin|].
  rewrite outputs_of_cons. cbn [snd].
  destruct (aggregate_group E bucket g0) as [b0|e0] eqn:Hb0; [|exists e0; reflexivity].
  destruct Hin as [Heq|Hin]; [injection Heq as -> ->; congruence|].
  destruct (IH Hin Hg) as [e' He']. exists e'. rewrite He'. reflexivity.
Qed.

(** X10. One value that is not a number in a counter group makes
    [aggregate] raise for all the samples of the consumer: the block of
    the consumer ends in its [rescue] clause and nothing is submitted for
    it, its other metrics included. *)
Theorem bad_counter_value_fails_consumer (bucket : Z) (cid : option string)
    (metrics : list Metric) (k : option string) (m0 : Metric)
    (rest : list Metric) (m : Metric) :
  let grp := m0 :: rest in
  List.filter (fun m : Metric => bool_decide (m !! "mkey" = k)) metrics = grp ->
  representative E grp m0 !! "type" = Some "counter" ->
  In m grp ->
  (forall v, Float_of E (m !! "value") <> Ret v) ->
  (exists e, aggregate E bucket metrics = Raise e) /\
  (exists e, process_group E bucket (cid, metrics) = rescue cid e) /\
  group_fails E bucket (cid, metrics) = true.
Proof.
  intros grp Hgrp Hty Hm Hbad.
  assert (Hin : In (k, grp) (group_by mkey metrics)) by (apply group_by_mkey_In, Hgrp).
  assert (Hblk : exists e, aggregate_group E bucket grp = Raise e).
  { unfold aggregate_group, grp. fold grp. rewrite (type_is_true _ _ Hty).
    destruct (Float_of E (m0 !! "value")) as [v0|e0] eqn:H0; [|exists e0; reflexivity].
    destruct Hm as [<-|Hm]; [exfalso; exact (Hbad v0 H0)|].
    destruct (mapR_raise (fun m : Metric => Float_of E (m !! "value")) rest m Hm Hbad)
      as [e1 He1].
    exists e1. cbn. rewrite He1. reflexivity. }
  destruct Hblk as [e0 Hblk].
  assert (Hagg : exists e, aggregate E bucket metrics = Raise e).
  { rewrite aggregate_outputs. eapply outputs_of_raise; eauto. }
  destruct Hagg as [e Hagg]. split; [exists e; exact Hagg|].
  unfold group_fails, group_outcome, process_group. cbn [fst snd].
  destruct (librato_client E cid) as [client|e'].
  - rewrite Hagg. cbn. split; [exists e|]; reflexivity.
  - cbn. split; [exists e'|]; reflexivity.
Qed.

Lemma representative_In m0 rest :
  In (representative E (m0 :: rest) m0) (m0 :: rest).
Proof.
  unfold representative. apply nth_In. apply Nat.mod_upper_bound. discriminate.
Qed.

Lemma aggregate_group_outputs bucket ms b g :
  aggregate_group E bucket ms = Ret b -> In g (outputs_of_block b) ->
  measure_time g = bucket /\ gtype g = "gauge" /\
  exists s stat, In s ms /\ gsource g = s !! "source" /\
                 display_units_long g = s !! "label" /\
                 gname g = default "" (s !! "name") +:+ "." +:+ stat.
Proof.
  destruct ms as [|m0 rest]; [discriminate|].
  pose proof (representative_In m0 rest) as Hs.
  unfold aggregate_group. set (s := representative E (m0 :: rest) m0) in *.
  destruct (type_is s "counter").
  { intros H Hg. apply bind_Ret_inv in H. destruct H as (v0 & _ & H).
    apply bind_Ret_inv in H. destruct H as (vs & _ & H). injection H as <-.
    destruct Hg as [<-|[]]. repeat split. exists s, "count". repeat split. exact Hs. }
  destruct (type_is s "last").
  { intros H Hg. apply bind_Ret_inv in H. destruct H as (v & _ & H). injection H as <-.
    destruct Hg as [<-|[]]. repeat split. exists s, "last". repeat split. exact Hs. }
  destruct (type_is s "list").
  { intros H Hg. apply bind_Ret_inv in H. destruct H as (stats & _ & H). injection H as <-.
    cbn in Hg. apply in_map_iff in Hg. destruct Hg as (sv & <- & _).
    repeat split. exists s, (fst sv). repeat split. exact Hs. }
  intros H Hg. injection H as <-. destruct Hg.
Qed.

Lemma outputs_of_In_inv bucket gs : forall out x,
  outputs_of E bucket gs = Ret out -> In x out ->
  exists k g b, In (k, g) gs /\ aggregate_group E bucket g = Ret b /\
                In x (outputs_of_block b).
Proof.
  induction gs as [|[k0 g0] gs IH]; intros out x Hout Hx.
  - injection Hout as <-. destruct Hx.
  - rewrite outputs_of_cons in Hout. cbn [snd] in Hout.
    apply bind_Ret_inv in Hout. destruct Hout as (b0 & Hb0 & Hout).
    apply bind_Ret_inv in Hout. destruct Hout as (out' & Hout' & Hout).
    injection Hout as <-. apply in_app_or in Hx. destruct Hx as [Hx|Hx].
    + exists k0, g0, b0. split; [left; reflexivity|]. split; assumption.
    + destruct (IH _ _ Hout' Hx) as (k & g & b & Hin & Hb & Hxb).
      exists k, g, b. split; [right; exact Hin|]. split; assumption.
Qed.

(** X11. Every output of [aggregate] carries the bucket as its
    [measure_time] and the type "gauge", and the source, the label and,
    before the first dot of its name, the name of one of the samples it
    was given. *)
Theorem outputs_come_from_samples (bucket : Z) (metrics : list Metric)
    (out : list Gauge) (g : Gauge) :
  aggregate E bucket metrics = Ret out -> In g out ->
  measure_time g = bucket /\ gtype g = "gauge" /\
  exists s stat, In s metrics /\ gsource g = s !! "source" /\
                 display_units_long g = s !! "label" /\
                 gname g = default "" (s !! "name") +:+ "." +:+ stat.
Proof.
  intros Hout Hg. rewrite aggregate_outputs in Hout.
  destruct (outputs_of_In_inv bucket _ out g Hout Hg) as (k & grp & b & Hin & Hb & Hgb).
  destruct (aggregate_group_outputs bucket grp b g Hb Hgb)
    as (H1 & H2 & s & stat & Hs & H3).
  split; [exact H1|]. split; [exact H2|]. exists s, stat. split; [|exact H3].
  apply In_group_by in Hin. subst grp. apply filter_In in Hs. tauto.
Qed.

(** X12. The consumers of a snapshot are kept apart: every record of a
    group has the consumer of the group, and a batch that is submitted
    goes to the client of that consumer and holds only outputs of samples
    of that consumer. *)
Theorem batches_hold_own_samples (partition max bucket : Z)
    (groups : list (option string * list Metric))
    (cid : option string) (ms : list Metric) :
  tenant_groups E partition max bucket = Ret groups ->
  In (cid, ms) groups ->
  (forall m, In m ms -> m !! "consumer" = cid) /\
  forall client q,
    group_outcome E bucket (cid, ms) = Ret (Some (client, q)) ->
    librato_client E cid = Ret client /\
    In (Submitted client q) (process_group E bucket (cid, ms)) /\
    forall g, In g q ->
      exists s, In s ms /\ s !! "consumer" = cid /\ gsource g = s !! "source".
Proof.
  intros Hgroups Hin.
  assert (Hcons : forall m, In m ms -> m !! "consumer" = cid).
  { unfold tenant_groups in Hgroups.
    apply bind_Ret_inv in Hgroups. destruct Hgroups as (keys & _ & Hgroups).
    apply bind_Ret_inv in Hgroups. destruct Hgroups as (kept & _ & Hgroups).
    apply bind_Ret_inv in Hgroups. destruct Hgroups as (records & _ & Hgroups).
    injection Hgroups as <-. apply In_group_by in Hin. subst ms.
    intros m Hm. apply filter_In in Hm. destruct Hm as [_ Hm].
    apply bool_decide_eq_true in Hm. exact Hm. }
  split; [exact Hcons|]. intros client q Hq.
  pose proof (process_group_cases E bucket (cid, ms)) as Hcases. rewrite Hq in Hcases.
  unfold group_outcome in Hq. cbn [fst snd] in Hq.
  apply bind_Ret_inv in Hq. destruct Hq as (client' & Hclient & Hq).
  apply bind_Ret_inv in Hq. destruct Hq as (q' & Hagg & Hq).
  destruct (0 <? Z.of_nat (length q')); [|discriminate].
  apply bind_Ret_inv in Hq. destruct Hq as (u & _ & Hq). injection Hq as -> ->.
  split; [exact Hclient|]. split; [rewrite Hcases; right; left; reflexivity|].
  intros g Hg.
  rewrite aggregate_outputs in Hagg.
  destruct (outputs_of_In_inv bucket _ q g Hagg Hg) as (k & grp & b & Hgrp & Hb & Hgb).
  destruct (aggregate_group_outputs bucket grp b g Hb Hgb)
    as (_ & _ & s & stat & Hs & Hsrc & _).
  apply In_group_by in Hgrp. subst grp. apply filter_In in Hs. destruct Hs as [Hs _].
  exists s. split; [exact Hs|]. split; [apply Hcons, Hs | exact Hsrc].
Qed.

Lemma process_group_items bucket g :
  count_events is_items_count (process_group E bucket g)
    = ((if group_submits E bucket g then 1 else 0)
       + (if group_submit_fails E bucket g then 1 else 0))%nat.
Proof.
  unfold group_submits, group_submit_fails, group_outcome, process_group.
  destruct (librato_client E (fst g)) as [client|e]; [|reflexivity]. cbn.
  destruct (aggregate E bucket (snd g)) as [q|e]; [|reflexivity]. cbn.
  destruct (0 <? Z.of_nat (length q)); [|reflexivity].
  destruct (q_submit E client q) as [[]|e]; reflexivity.
Qed.

(** X13. The self-metric [outlet.librato.metrics] is recorded before the
    batch is submitted: a snapshot records it once for every batch that
    is submitted and once for every batch whose submission raises, so it
    also counts items that were not delivered. *)
Theorem items_counted_before_submit (partition max bucket : Z)
    (groups : list (option string * list Metric)) :
  tenant_groups E partition max bucket = Ret groups ->
  exists evs,
    snapshot E partition max bucket = Ret evs /\
    count_events is_items_count evs
      = (length (List.filter (group_submits E bucket) groups)
         + length (List.filter (group_submit_fails E bucket) groups))%nat /\
    count_events is_submission evs
      = length (List.filter (group_submits E bucket) groups).
Proof.
  intros Hgroups. exists (flat_map (process_group E bucket) groups).
  split; [unfold snapshot; rewrite Hgroups; reflexivity|].
  split; [|apply (flat_map_counts E bucket groups)].
  clear Hgroups. induction groups as [|g groups IH]; [reflexivity|].
  cbn [flat_map List.filter]. rewrite count_events_app, IH, process_group_items.
  destruct (group_submits E bucket g), (group_submit_fails E bucket g);
    cbn [length]; lia.
Qed.

Lemma assoc_get_set k v l : assoc_get k (assoc_set k v l) = Some v.
Proof.
  induction l as [|[k' v'] l IH]; cbn.
  - rewrite decide_True by reflexivity. reflexivity.
  - destruct (decide (k = k')) as [->|Hne]; cbn.
    + rewrite decide_True by reflexivity. reflexivity.
    + rewrite decide_False by exact Hne. exact IH.
Qed.

Lemma assoc_get_set_ne k f v l : f <> k -> assoc_get f (assoc_set k v l) = assoc_get f l.
Proof.
  intros Hf. induction l as [|[k' v'] l IH]; cbn.
  - rewrite decide_False by exact Hf. reflexivity.
  - destruct (decide (k = k')) as [->|Hne]; cbn.
    + rewrite !decide_False by exact Hf. reflexivity.
    + destruct (decide (f = k')); [reflexivity|exact IH].
Qed.

Lemma assoc_get_del k l : assoc_get k (assoc_del k l) = None.
Proof.
  induction l as [|[k' v'] l IH]; cbn; [reflexivity|].
  destruct (decide (k = k')) as [->|Hne]; cbn; [exact IH|].
  rewrite decide_False by exact Hne. exact IH.
Qed.

Lemma assoc_get_del_ne k f l : f <> k -> assoc_get f (assoc_del k l) = assoc_get f l.
Proof.
  intros Hf. induction l as [|[k' v'] l IH]; cbn; [reflexivity|].
  destruct (decide (k = k')) as [->|Hne]; cbn.
  - rewrite decide_False by exact Hf. exact IH.
  - destruct (decide (f = k')); [reflexivity|exact IH].
Qed.

(** X14. A record that [snapshot] fetches reads, under ["mkey"], what
    stands before the first colon of its key, whatever the stored record
    has there, and reads as it is stored under every other field. *)
Theorem fetch_sets_mkey (key : string) (h : Metric) :
  redis_hgetall E key = Ret h ->
  exists m,
    fetch E key = Ret m /\
    m !! "mkey" = mkey_of key /\
    (forall f, f <> "mkey" -> m !! f = h !! f) /\
    (forall pre rest, key = pre +:+ ":" +:+ rest -> pre <> "" ->
       Str.has_char ":" pre = false -> m !! "mkey" = Some pre).
Proof.
  intros Hh. unfold fetch. rewrite Hh. eexists. split; [reflexivity|].
  assert (H1 : merge1 h "mkey" (mkey_of key) !! "mkey" = mkey_of key).
  { unfold merge1. destruct (mkey_of key) as [v|].
    - apply assoc_get_set.
    - apply assoc_get_del. }
  split; [exact H1|]. split.
  - intros f Hf. unfold merge1. destruct (mkey_of key) as [v|].
    + apply assoc_get_set_ne, Hf.
    + apply assoc_get_del_ne, Hf.
  - intros pre rest -> Hne Hno. rewrite H1. apply StrFacts.ruby_split_head; assumption.
Qed.

End WithEnv.


Lemma malformed_key_aborts_snapshot_witness :
  snapshot ex_env_bad_key 1 2 120 = Raise ArgumentError.
Proof.
  destruct (malformed_key_aborts_snapshot ex_env_bad_key 1 2 120
              ["1:120:u1"] "abc:120:u2" ["3:120:u5"] ArgumentError) as [_ H].
  - discriminate.
  - reflexivity.
  - repeat constructor. exists 1. reflexivity.
  - reflexivity.
  - exact H.
Defined.

Lemma last_group_value_witness :
  aggregate ex_env 120 ex_last_group =
    Ret [mkGauge "depth.last" (Some "web.1") "gauge" (Some "ms") 120 5%float].
Proof.
  destruct (last_group_value ex_env 120 ex_last_group (Some "3")
              (<["mkey" := "3"]> (sample_of "carol" "depth" "last" "n/a"))
              [ <["mkey" := "3"]> (sample_of "carol" "depth" "last" "5") ]
              5%float) as (_ & _ & H & _).
  - vm_compute. reflexivity.
  - vm_compute. reflexivity.
  - vm_compute. reflexivity.
  - etransitivity; [exact H|]. vm_compute. reflexivity.
Defined.

Lemma bad_counter_value_fails_consumer_witness :
  process_group ex_env 120 (Some "alice", ex_bad_counter)
    = rescue (Some "alice") ArgumentError.
Proof.
  destruct (bad_counter_value_fails_consumer ex_env 120 (Some "alice") ex_bad_counter
              (Some "1")
              (<["mkey" := "1"]> (sample_of "alice" "hits" "counter" "1"))
              [ <["mkey" := "1"]> (sample_of "alice" "hits" "counter" "oops") ]
              (<["mkey" := "1"]> (sample_of "alice" "hits" "counter" "oops")))
    as (_ & [e He] & _).
  - vm_compute. reflexivity.
  - vm_compute. reflexivity.
  - right. left. reflexivity.
  - intros v. vm_compute. discriminate.
  - rewrite He. vm_compute in He. injection He as <-. reflexivity.
Defined.

Lemma outputs_come_from_samples_witness :
  Forall (fun g => measure_time g = 120)
         [mkGauge "hits.count" (Some "web.1") "gauge" (Some "ms") 120 6%float].
Proof.
  apply List.Forall_forall. intros g Hg.
  destruct (outputs_come_from_samples ex_env 120 ex_counter_group
              [mkGauge "hits.count" (Some "web.1") "gauge" (Some "ms") 120 6%float] g)
    as (H & _).
  - vm_compute. reflexivity.
  - exact Hg.
  - exact H.
Defined.

Lemma batches_hold_own_samples_witness :
  Forall (fun m : Metric => m !! "consumer" = Some "alice")
         [ <["mkey" := "11"]> (sample_of "alice" "hits" "counter" "8") ].
Proof.
  apply List.Forall_forall.
  destruct (batches_hold_own_samples ex_env 1 2 180 ex_groups (Some "alice")
              [ <["mkey" := "11"]> (sample_of "alice" "hits" "counter" "8") ])
    as [H _].
  - vm_compute. reflexivity.
  - right. right. left. reflexivity.
  - exact H.
Defined.

Lemma items_counted_before_submit_witness :
  exists evs,
    snapshot ex_env_refusing 1 2 120 = Ret evs /\
    count_events is_items_count evs = 2%nat /\
    count_events is_submission evs = 1%nat.
Proof.
  destruct (tenant_groups ex_env_refusing 1 2 120) as [groups|e] eqn:Hg;
    [|vm_compute in Hg; discriminate].
  destruct (items_counted_before_submit ex_env_refusing 1 2 120 groups Hg)
    as (evs & Hevs & Hi & Hs).
  exists evs. split; [exact Hevs|].
  vm_compute in Hg. injection Hg as <-.
  split; [rewrite Hi | rewrite Hs]; vm_compute; reflexivity.
Defined.

Lemma fetch_sets_mkey_witness :
  exists m, fetch ex_env "1:120:u1" = Ret m /\ m !! "mkey" = Some "1".
Proof.
  destruct (fetch_sets_mkey ex_env "1:120:u1" (sample_of "alice" "hits" "counter" "1"))
    as (m & Hm & _ & _ & Hpre).
  - vm_compute. reflexivity.
  - exists m. split; [exact Hm|].
    apply (Hpre "1" "120:u1"); [reflexivity | discriminate | reflexivity].
Defined.

End OutletMore.

(** ** The decoder and the encoder *)

Module Base64Facts.

Import base64.

Lemma skip_newlines_foreign src : forall si,
  has_foreign src = true ->
  exists c r si', skip_newlines src si = (String c r, si') /\
                  has_foreign (String c r) = true.
Proof.
  induction src as [|c r IH]; intros si H; [discriminate|].
  cbn [skip_newlines]. destruct (is_newline c) eqn:Hn.
  - cbn [has_foreign] in H. unfold foreign in H. rewrite Hn in H.
    destruct (decodeMap c); cbn in H; apply IH, H.
  - exists c, r, si. split; [reflexivity | exact H].
Qed.

Lemma after_padding_foreign q src si :
  has_foreign src = true -> snd (after_padding q src si) <> None.
Proof.
  intros H. unfold after_padding.
  destruct (skip_newlines_foreign src si H) as (c & r & si' & -> & _). discriminate.
Qed.

(** A byte that is foreign to the encoding makes the decoder fail,
    wherever it stands. *)
Lemma decode_foreign src : forall si q,
  has_foreign src = true -> snd (decode src si q) <> None.
Proof.
  induction src as [|c r IH]; intros si q H; [discriminate|].
  cbn [has_foreign] in H. cbn [decode]. unfold foreign in H.
  destruct (decodeMap c) as [v|].
  - cbn in H. destruct (length (q ++ [v]) =? 4)%nat.
    + specialize (IH (si + 1) [] H). destruct (decode r (si + 1) []). exact IH.
    + apply IH, H.
  - destruct (is_newline c); [cbn in H; apply IH, H|].
    destruct (is_pad c); [|discriminate]. cbn in H.
    destruct (length q) as [|[|[|n]]]; [discriminate|discriminate| |].
    + destruct (skip_newlines_foreign r (si + 1) H) as (c2 & r2 & si' & -> & H2).
      destruct (is_pad c2) eqn:Hp; [|discriminate].
      apply after_padding_foreign. cbn [has_foreign] in H2. unfold foreign in H2.
      rewrite Hp in H2. destruct (decodeMap c2), (is_newline c2); cbn in H2; exact H2.
    + apply after_padding_foreign, H.
Qed.

End Base64Facts.

Module Base64RoundTrip.

Import base64 StrFacts.

Lemma code_range a : 0 <= code a < 256.
Proof. unfold code. pose proof (N_ascii_bounded a). lia. Qed.

Lemma byte_of_eq v a : v mod 256 = code a -> byte_of v = a.
Proof.
  intros H. unfold byte_of. rewrite H. unfold code. rewrite N2Z.id.
  apply ascii_N_embedding.
Qed.

(** The two tables of the standard alphabet are inverse to each other. *)
Lemma alphabet_table :
  forallb (fun n => bool_decide (decodeMap (encodeStd (Z.of_nat n)) = Some (Z.of_nat n))
                    && negb (Ascii.eqb (encodeStd (Z.of_nat n)) ":"))
          (seq 0 64) = true.
Proof. vm_compute. reflexivity. Qed.

Lemma alphabet_digit v :
  0 <= v < 64 ->
  decodeMap (encodeStd v) = Some v /\ Ascii.eqb (encodeStd v) ":" = false.
Proof.
  intros Hv. pose proof alphabet_table as H. rewrite forallb_forall in H.
  specialize (H (Z.to_nat v)). rewrite Z2Nat.id in H by lia.
  assert (Hin : In (Z.to_nat v) (seq 0 64)) by (apply in_seq; lia).
  apply H in Hin. apply andb_true_iff in Hin. destruct Hin as [H1 H2].
  apply bool_decide_eq_true in H1. apply negb_true_iff in H2. auto.
Qed.

Lemma sextet_range val sh : 0 <= Z.land (Z.shiftr val sh) 63 < 64.
Proof.
  change 63 with (Z.ones 6). rewrite Z.land_ones by lia.
  apply Z.mod_pos_bound. reflexivity.
Qed.

Lemma decodeMap_digit val sh :
  decodeMap (digit val sh) = Some (Z.land (Z.shiftr val sh) 63).
Proof. apply alphabet_digit, sextet_range. Qed.

Lemma digit_not_colon val sh : Ascii.eqb (digit val sh) ":" = false.
Proof. apply alphabet_digit, sextet_range. Qed.

(** Bits that do not overlap: [|] is [+]. *)
Lemma lor_disjoint a b n :
  0 <= n -> 0 <= b < 2 ^ n -> Z.lor (a * 2 ^ n) b = a * 2 ^ n + b.
Proof.
  intros Hn Hb.
  assert (H0 : Z.land (a * 2 ^ n) b = 0).
  { apply Z.bits_inj'. intros m Hm. rewrite Z.land_spec, Z.bits_0.
    destruct (Z.lt_ge_cases m n) as [Hlt|Hge].
    - rewrite Z.mul_pow2_bits_low by lia. reflexivity.
    - rewrite <- (Z.mod_small b (2 ^ n)) by lia.
      rewrite Z.mod_pow2_bits_high by lia. apply andb_false_r. }
  rewrite <- Z.lxor_lor by exact H0. symmetry. apply Z.add_nocarry_lxor, H0.
Qed.

Lemma sextet_div val sh :
  0 <= sh -> Z.land (Z.shiftr val sh) 63 = (val / 2 ^ sh) mod 64.
Proof.
  intros Hsh. change 63 with (Z.ones 6). rewrite Z.land_ones by lia.
  rewrite Z.shiftr_div_pow2 by lia. reflexivity.
Qed.

(** The value that [quantum_bytes] rebuilds from four digits. *)
Lemma quantum_val d0 d1 d2 d3 :
  0 <= d0 < 64 -> 0 <= d1 < 64 -> 0 <= d2 < 64 -> 0 <= d3 < 64 ->
  Z.lor (Z.lor (Z.shiftl d0 18) (Z.shiftl d1 12)) (Z.lor (Z.shiftl d2 6) d3)
  = d0 * 262144 + d1 * 4096 + d2 * 64 + d3.
Proof.
  intros H0 H1 H2 H3. rewrite !Z.shiftl_mul_pow2 by lia.
  rewrite (lor_disjoint d2 d3 6) by (cbn; lia).
  rewrite (lor_disjoint d0 (d1 * 2 ^ 12) 18) by (cbn; lia).
  replace (d0 * 2 ^ 18 + d1 * 2 ^ 12) with ((d0 * 64 + d1) * 2 ^ 12) by (cbn; lia).
  rewrite (lor_disjoint _ (d2 * 2 ^ 6 + d3) 12) by (cbn; lia).
  cbn. lia.
Qed.

(** The value that the encoder builds from three bytes. *)
Lemma group_val x y z :
  0 <= x < 256 -> 0 <= y < 256 -> 0 <= z < 256 ->
  Z.lor (Z.lor (Z.shiftl x 16) (Z.shiftl y 8)) z = x * 65536 + y * 256 + z.
Proof.
  intros Hx Hy Hz. rewrite !Z.shiftl_mul_pow2 by lia.
  rewrite (lor_disjoint x (y * 2 ^ 8) 16) by (cbn; lia).
  replace (x * 2 ^ 16 + y * 2 ^ 8) with ((x * 256 + y) * 2 ^ 8) by (cbn; lia).
  rewrite (lor_disjoint _ z 8) by (cbn; lia).
  cbn. lia.
Qed.

Lemma digits_of_val val :
  0 <= val < 16777216 ->
  (val / 2 ^ 18) mod 64 * 262144 + (val / 2 ^ 12) mod 64 * 4096
    + (val / 2 ^ 6) mod 64 * 64 + (val / 2 ^ 0) mod 64 = val.
Proof.
  intros Hv. change (2 ^ 18) with 262144. change (2 ^ 12) with 4096.
  change (2 ^ 6) with 64. change (2 ^ 0) with 1.
  Z.to_euclidean_division_equations. lia.
Qed.

Lemma quantum_rebuild val d0 d1 d2 d3 :
  0 <= val < 16777216 ->
  d0 = Z.land (Z.shiftr val 18) 63 -> d1 = Z.land (Z.shiftr val 12) 63 ->
  d2 = Z.land (Z.shiftr val 6) 63 -> d3 = Z.land (Z.shiftr val 0) 63 ->
  Z.lor (Z.lor (Z.shiftl d0 18) (Z.shiftl d1 12)) (Z.lor (Z.shiftl d2 6) d3) = val.
Proof.
  intros Hv -> -> -> ->. rewrite quantum_val by apply sextet_range.
  rewrite !sextet_div by lia. apply digits_of_val, Hv.
Qed.

Lemma bytes_of_val a b c val :
  val = code a * 65536 + code b * 256 + code c ->
  byte_of (Z.shiftr val 16) = a /\ byte_of (Z.shiftr val 8) = b /\ byte_of val = c.
Proof.
  intros ->. pose proof (code_range a). pose proof (code_range b).
  pose proof (code_range c). rewrite !Z.shiftr_div_pow2 by lia.
  change (2 ^ 16) with 65536. change (2 ^ 8) with 256.
  repeat split; apply byte_of_eq; Z.to_euclidean_division_equations; lia.
Qed.

(** Four digits give back the three bytes they were made of. *)
Lemma quantum_bytes_group a b c :
  let val := Z.lor (Z.lor (Z.shiftl (code a) 16) (Z.shiftl (code b) 8)) (code c) in
  quantum_bytes [Z.land (Z.shiftr val 18) 63; Z.land (Z.shiftr val 12) 63;
                 Z.land (Z.shiftr val 6) 63; Z.land (Z.shiftr val 0) 63]
  = String a (String b (String c EmptyString)).
Proof.
  intros val. pose proof (code_range a). pose proof (code_range b).
  pose proof (code_range c).
  assert (Hval : val = code a * 65536 + code b * 256 + code c)
    by (apply group_val; assumption).
  unfold quantum_bytes. cbn [length nth].
  rewrite (quantum_rebuild val) by (reflexivity || lia).
  destruct (bytes_of_val a b c val Hval) as (-> & -> & ->). reflexivity.
Qed.

(** Three digits give back the two bytes they were made of. *)
Lemma quantum_bytes_two a b :
  let val := Z.lor (Z.shiftl (code a) 16) (Z.shiftl (code b) 8) in
  quantum_bytes [Z.land (Z.shiftr val 18) 63; Z.land (Z.shiftr val 12) 63;
                 Z.land (Z.shiftr val 6) 63]
  = String a (String b EmptyString).
Proof.
  intros val. pose proof (code_range a). pose proof (code_range b).
  assert (Hval : val = code a * 65536 + code b * 256 + code Ascii.zero).
  { rewrite <- (group_val _ _ (code Ascii.zero)) by (assumption || apply code_range).
    change (code Ascii.zero) with 0. rewrite Z.lor_0_r. reflexivity. }
  change (code Ascii.zero) with 0 in Hval.
  unfold quantum_bytes. cbn [length nth].
  rewrite (quantum_rebuild val); [| lia | reflexivity | reflexivity | reflexivity |].
  - destruct (bytes_of_val a b Ascii.zero val Hval) as (-> & -> & _). reflexivity.
  - rewrite sextet_div by lia. rewrite Hval. change (2 ^ 0) with 1.
    Z.to_euclidean_division_equations. lia.
Qed.

(** Two digits give back the byte they were made of. *)
Lemma quantum_bytes_one a :
  let val := Z.shiftl (code a) 16 in
  quantum_bytes [Z.land (Z.shiftr val 18) 63; Z.land (Z.shiftr val 12) 63]
  = String a EmptyString.
Proof.
  intros val. pose proof (code_range a).
  assert (Hval : val = code a * 65536 + code Ascii.zero * 256 + code Ascii.zero).
  { change (code Ascii.zero) with 0. unfold val. rewrite Z.shiftl_mul_pow2 by lia.
    change (2 ^ 16) with 65536. lia. }
  change (code Ascii.zero) with 0 in Hval.
  unfold quantum_bytes. cbn [length nth].
  rewrite (quantum_rebuild val); [| lia | reflexivity | reflexivity | |].
  - destruct (bytes_of_val a Ascii.zero Ascii.zero val Hval) as (-> & _ & _). reflexivity.
  - rewrite sextet_div by lia. rewrite Hval. change (2 ^ 6) with 64.
    Z.to_euclidean_division_equations. lia.
  - rewrite sextet_div by lia. rewrite Hval. change (2 ^ 0) with 1.
    Z.to_euclidean_division_equations. lia.
Qed.

Lemma decode_padding_two d0 d1 si :
  decode "==" si [d0; d1] = (quantum_bytes [d0; d1], None).
Proof. reflexivity. Qed.

Lemma decode_padding_one d0 d1 d2 si :
  decode "=" si [d0; d1; d2] = (quantum_bytes [d0; d1; d2], None).
Proof. reflexivity. Qed.

Lemma decode_digit val sh r si q :
  decode (String (digit val sh) r) si q =
    if (length (q ++ [Z.land (Z.shiftr val sh) 63]) =? 4)%nat then
      let (out, err) := decode r (si + 1) [] in
      (quantum_bytes (q ++ [Z.land (Z.shiftr val sh) 63]) +:+ out, err)
    else decode r (si + 1) (q ++ [Z.land (Z.shiftr val sh) 63]).
Proof. cbn [decode]. rewrite decodeMap_digit. reflexivity. Qed.

(** Strings, three bytes at a time. *)
Lemma string_ind3 (P : string -> Prop) :
  P EmptyString ->
  (forall a, P (String a EmptyString)) ->
  (forall a b, P (String a (String b EmptyString))) ->
  (forall a b c r, P r -> P (String a (String b (String c r)))) ->
  forall s, P s.
Proof.
  intros H0 H1 H2 H3 s.
  assert (H : P s /\ (forall a, P (String a s)) /\ (forall a b, P (String a (String b s)))).
  { induction s as [|c r (IH0 & IH1 & IH2)]; [auto|].
    split; [apply IH1|]. split; [intros a; apply IH2|]. intros a b. apply H3, IH0. }
  apply H.
Qed.

Lemma decode_EncodeToString s : forall si, decode (EncodeToString s) si [] = (s, None).
Proof.
  induction s as [|a|a b|a b c r IH] using string_ind3; intros si.
  - reflexivity.
  - cbn [EncodeToString]. cbv zeta. rewrite !decode_digit. cbn [app length Nat.eqb].
    rewrite decode_padding_two. rewrite quantum_bytes_one. reflexivity.
  - cbn [EncodeToString]. cbv zeta. rewrite !decode_digit. cbn [app length Nat.eqb].
    rewrite decode_padding_one. rewrite quantum_bytes_two. reflexivity.
  - cbn [EncodeToString]. cbv zeta. rewrite !decode_digit. cbn [app length Nat.eqb].
    rewrite IH. rewrite quantum_bytes_group. reflexivity.
Qed.

Lemma EncodeToString_no_colon s : Str.has_char ":" (EncodeToString s) = false.
Proof.
  induction s as [|a|a b|a b c r IH] using string_ind3;
    cbn [EncodeToString]; cbv zeta; cbn [Str.has_char];
    rewrite ?digit_not_colon, ?IH; reflexivity.
Qed.

Lemma EncodeToString_length s :
  exists k, String.length (EncodeToString s) = (4 * k)%nat.
Proof.
  induction s as [|a|a b|a b c r [k IH]] using string_ind3.
  - exists 0%nat. reflexivity.
  - exists 1%nat. reflexivity.
  - exists 1%nat. reflexivity.
  - exists (S k). cbn [EncodeToString]. cbv zeta. cbn [String.length]. rewrite IH. lia.
Qed.

Lemma EncodeToString_not_sentinel s : EncodeToString s <> "l2met".
Proof.
  intros H. destruct (EncodeToString_length s) as [k Hk]. rewrite H in Hk.
  cbn in Hk. lia.
Qed.

Lemma EncodeToString_empty s : EncodeToString s = "" -> s = "".
Proof. destruct s as [|a [|b [|c r]]]; [reflexivity|discriminate..]. Qed.

(** What a client encodes, the decoder gives back, without error. *)
Theorem DecodeString_EncodeToString s : DecodeString (EncodeToString s) = (s, None).
Proof. apply decode_EncodeToString. Qed.

End Base64RoundTrip.

(** ** [ParseAuth]: failures and schemes *)

Module UtilsMore.

Import utils StrFacts UtilsFacts Base64Facts.

Lemma split2_String sep a r :
  Str.split2 sep (String a r) =
    if Ascii.eqb a sep then [EmptyString; r]
    else match Str.split2 sep r with
         | [] => [String a EmptyString]
         | f :: fs => String a f :: fs
         end.
Proof. reflexivity. Qed.

Lemma split2_no_sep sep s : Str.has_char sep s = false -> Str.split2 sep s = [s].
Proof.
  induction s as [|a r IH]; [reflexivity|]. cbn [Str.has_char]. intros H.
  apply orb_false_iff in H. destruct H as [Ha Hr].
  rewrite split2_String, Ha, (IH Hr). reflexivity.
Qed.

(** The header is cut at its first space, where it has one. *)
Lemma split2_sep sep s :
  Str.has_char sep s = true ->
  exists a b, Str.split2 sep s = [a; b] /\ s = a +:+ String sep b /\
              Str.has_char sep a = false.
Proof.
  induction s as [|c r IH]; [discriminate|]. cbn [Str.has_char]. rewrite split2_String.
  destruct (Ascii.eqb c sep) eqn:Hc.
  - intros _. apply Ascii.eqb_eq in Hc. subst c. exists EmptyString, r. repeat split.
  - cbn [orb]. intros Hr. destruct (IH Hr) as (a & b & -> & -> & Ha).
    exists (String c a), b. split; [reflexivity|]. split; [reflexivity|].
    cbn [Str.has_char]. rewrite Hc, Ha. reflexivity.
Qed.

Lemma split2_prefix sep a b :
  Str.has_char sep a = false -> Str.split2 sep (a +:+ String sep b) = [a; b].
Proof.
  induction a as [|c a IH]; intros H.
  - rewrite append_Empty, split2_String, Ascii.eqb_refl. reflexivity.
  - cbn [Str.has_char] in H. apply orb_false_iff in H. destruct H as [Hc Ha].
    rewrite append_String, split2_String, Hc, (IH Ha). reflexivity.
Qed.

Section WithKeys.

Variable VerifyAndDecrypt : string -> option string.

(** X15. [ParseAuth] reads the first value of the header only, and of it
    only what follows the first space: the word before the space, the
    scheme, is never looked at, so that any scheme, the empty one
    included, resolves like "Basic". *)
Theorem scheme_is_not_checked (r1 r2 : Request) (more1 more2 : list string)
    (scheme1 scheme2 cred : string) :
  Str.has_char " " scheme1 = false ->
  Str.has_char " " scheme2 = false ->
  Header r1 !! "Authorization" = Some ((scheme1 +:+ " " +:+ cred) :: more1) ->
  Header r2 !! "Authorization" = Some ((scheme2 +:+ " " +:+ cred) :: more2) ->
  ParseAuth VerifyAndDecrypt r1 = ParseAuth VerifyAndDecrypt r2.
Proof.
  intros H1 H2 Hr1 Hr2. unfold ParseAuth. rewrite Hr1, Hr2.
  change (" " +:+ cred) with (String " " cred).
  rewrite !split2_prefix by assumption. reflexivity.
Qed.

Lemma inline_creds_no_errorString part0 u p msg :
  inline_creds part0 <> Return u p (Some (errorString msg)).
Proof.
  rewrite inline_creds_resolved. destruct (decide (part0 = "")); [discriminate|].
  cbv zeta. destruct (snd (base64.DecodeString part0)); discriminate.
Qed.

Lemma signed_or_inline_no_errorString userPass part0 u p msg :
  signed_or_inline VerifyAndDecrypt userPass part0 <> Return u p (Some (errorString msg)).
Proof.
  unfold signed_or_inline. destruct (VerifyAndDecrypt userPass) as [s|].
  - destruct (Str.split ":" s) as [|a [|b l]]; discriminate.
  - apply inline_creds_no_errorString.
Qed.

(** What [ParseAuth] returns once it has the decoded payload. *)
Lemma after_decoding_no_errorString userPass u p msg :
  match Str.split ":" userPass with
  | [] => Panic "index out of range"
  | part0 :: rest =>
      if decide (part0 = "l2met") then
        match rest with
        | [] => Panic "index out of range"
        | part1 :: _ =>
            if (0 <? Z.of_nat (String.length part1)) then Return part0 part1 None
            else signed_or_inline VerifyAndDecrypt userPass part0
        end
      else signed_or_inline VerifyAndDecrypt userPass part0
  end <> Return u p (Some (errorString msg)).
Proof.
  destruct (Str.split ":" userPass) as [|part0 rest]; [discriminate|].
  destruct (decide (part0 = "l2met")); [|apply signed_or_inline_no_errorString].
  destruct rest as [|part1 rest]; [discriminate|].
  destruct (0 <? Z.of_nat (String.length part1)); [discriminate|].
  apply signed_or_inline_no_errorString.
Qed.

(** X16. The three hard failures of [ParseAuth], and when each is
    returned: no header; a first value without space; credentials, the
    part after the first space, that are not valid base64. They come
    with an empty user and an empty pass, and no other error made by
    [errors.New] is ever returned. *)
Theorem hard_failures (r : Request) :
  ((exists u p, ParseAuth VerifyAndDecrypt r
                = Return u p (Some (errorString "Authorization header not set.")))
   <-> Header r !! "Authorization" = None) /\
  ((exists u p, ParseAuth VerifyAndDecrypt r
                = Return u p (Some (errorString "Malformed header.")))
   <-> exists h more, Header r !! "Authorization" = Some (h :: more) /\
                      Str.has_char " " h = false) /\
  ((exists u p, ParseAuth VerifyAndDecrypt r
                = Return u p (Some (errorString "Malformed encoding.")))
   <-> exists scheme cred more,
         Header r !! "Authorization" = Some ((scheme +:+ " " +:+ cred) :: more) /\
         Str.has_char " " scheme = false /\
         snd (base64.DecodeString cred) <> None) /\
  (forall u p msg, ParseAuth VerifyAndDecrypt r = Return u p (Some (errorString msg)) ->
     u = "" /\ p = "" /\
     (msg = "Authorization header not set." \/ msg = "Malformed header." \/
      msg = "Malformed encoding.")).
Proof.
  unfold ParseAuth.
  destruct (Header r !! "Authorization") as [[|h more]|] eqn:Hh.
  - (* a header without value: the code panics *)
    split; [split; [intros (u & p & H); discriminate | discriminate]|].
    split; [split; [intros (u & p & H); discriminate
                   | intros (h & more & H & _); discriminate]|].
    split; [split; [intros (u & p & H); discriminate
                   | intros (s & c & more & H & _); discriminate]|].
    intros u p msg H. discriminate.
  - destruct (Str.has_char " " h) eqn:Hsp.
    + destruct (split2_sep " " h Hsp) as (scheme & cred & Hsplit & Hcat & Hscheme).
      rewrite Hsplit.
      destruct (base64.DecodeString cred) as [userPass [off|]] eqn:Hdec.
      * split; [split; [intros (u & p & H); discriminate | discriminate]|].
        split; [split; [intros (u & p & H); discriminate
                       | intros (h' & more' & H & Hno); injection H as -> _; congruence]|].
        split.
        { split; [intros _|intros _; exists "", ""; reflexivity].
          exists scheme, cred, more. rewrite Hcat. split; [reflexivity|].
          split; [exact Hscheme|]. rewrite Hdec. discriminate. }
        intros u p msg H. injection H as <- <- <-. auto.
      * pose proof (after_decoding_no_errorString userPass) as Hno.
        split; [split; [intros (u & p & H); exfalso; exact (Hno _ _ _ H) | discriminate]|].
        split; [split; [intros (u & p & H); exfalso; exact (Hno _ _ _ H)
                       | intros (h' & more' & H & Hn); injection H as -> _; congruence]|].
        split.
        { split; [intros (u & p & H); exfalso; exact (Hno _ _ _ H)|].
          intros (s' & c' & more' & H & Hs' & Hbad). injection H as H _.
          rewrite H in Hsplit. change (" " +:+ c') with (String " " c') in Hsplit.
          rewrite split2_prefix in Hsplit by exact Hs'. injection Hsplit as _ <-.
          rewrite Hdec in Hbad. contradiction. }
        intros u p msg H. exfalso. exact (Hno _ _ _ H).
    + rewrite (split2_no_sep " " h Hsp).
      split; [split; [intros (u & p & H); discriminate | discriminate]|].
      split; [split; [intros _; exists h, more; auto | intros _; exists "", ""; reflexivity]|].
      split.
      { split; [intros (u & p & H); discriminate|].
        intros (s' & c' & more' & H & Hs' & _). injection H as -> _.
        change (" " +:+ c') with (String " " c') in Hsp.
        exfalso. clear -Hsp. induction s' as [|a s' IH]; cbn in Hsp; [discriminate|].
        apply orb_false_iff in Hsp. destruct Hsp as [_ Hsp]. exact (IH Hsp). }
      intros u p msg H. injection H as <- <- <-. auto.
  - split; [split; [reflexivity | intros _; exists "", ""; reflexivity]|].
    split; [split; [intros (u & p & H); discriminate
                   | intros (h & more & H & _); discriminate]|].
    split; [split; [intros (u & p & H); discriminate
                   | intros (s & c & more & H & _); discriminate]|].
    intros u p msg H. injection H as <- <- <-. auto.
Qed.

Lemma has_char_foreign (c : ascii) (s : string) :
  base64.foreign c = true -> Str.has_char c s = true -> base64.has_foreign s = true.
Proof.
  intros Hc. induction s as [|a s IH]; [discriminate|].
  cbn [Str.has_char base64.has_foreign]. destruct (Ascii.eqb a c) eqn:Ha.
  - apply Ascii.eqb_eq in Ha. subst a. rewrite Hc. reflexivity.
  - cbn [orb]. intros H. rewrite (IH H). apply orb_true_r.
Qed.

(** X17. Credentials that hold a byte outside the base64 alphabet, the
    padding and the newlines, wherever it stands, are a "Malformed
    encoding.": so is a header with a second space, since everything after
    the first space is taken as the credentials. *)
Theorem foreign_byte_is_malformed_encoding (r : Request) (scheme cred : string)
    (more : list string) :
  Header r !! "Authorization" = Some ((scheme +:+ " " +:+ cred) :: more) ->
  Str.has_char " " scheme = false ->
  base64.has_foreign cred = true \/ Str.has_char " " cred = true ->
  ParseAuth VerifyAndDecrypt r
    = Return "" "" (Some (errorString "Malformed encoding.")).
Proof.
  intros Hh Hs Hbad.
  assert (Hf : base64.has_foreign cred = true).
  { destruct Hbad as [H|H]; [exact H|]. apply (has_char_foreign " " cred); [reflexivity|exact H]. }
  unfold ParseAuth. rewrite Hh. change (" " +:+ cred) with (String " " cred).
  rewrite split2_prefix by exact Hs.
  pose proof (decode_foreign cred 0 [] Hf) as Hd. unfold base64.DecodeString.
  destruct (base64.decode cred 0 []) as [userPass [off|]]; [reflexivity|].
  exfalso. apply Hd. reflexivity.
Qed.

(** X18. Of the decoded payload, the sentinel scheme reads the first two
    fields and never asks the keys, and the inline scheme reads the first
    field only: what follows the second, resp. the first colon does not
    change what [ParseAuth] returns. *)
Theorem later_fields_are_ignored (r1 r2 : Request) (h1 h2 : string)
    (more1 more2 : list string) (scheme1 scheme2 cred1 cred2 up1 up2 : string)
    (part0 : string) (rest1 rest2 : list string) :
  Header r1 !! "Authorization" = Some (h1 :: more1) ->
  Header r2 !! "Authorization" = Some (h2 :: more2) ->
  Str.split2 " " h1 = [scheme1; cred1] ->
  Str.split2 " " h2 = [scheme2; cred2] ->
  base64.DecodeString cred1 = (up1, None) ->
  base64.DecodeString cred2 = (up2, None) ->
  Str.split ":" up1 = part0 :: rest1 ->
  Str.split ":" up2 = part0 :: rest2 ->
  (forall tok tl, part0 = "l2met" -> rest1 = tok :: tl -> tok <> "" ->
     ParseAuth VerifyAndDecrypt r1 = Return "l2met" tok None) /\
  (part0 <> "l2met" ->
   VerifyAndDecrypt up1 = None -> VerifyAndDecrypt up2 = None ->
   ParseAuth VerifyAndDecrypt r1 = ParseAuth VerifyAndDecrypt r2 /\
   ParseAuth VerifyAndDecrypt r1 = inline_creds part0).
Proof.
  intros Hh1 Hh2 Hs1 Hs2 Hd1 Hd2 Hp1 Hp2. unfold ParseAuth.
  rewrite Hh1, Hh2, Hs1, Hs2, Hd1, Hd2, Hp1, Hp2. split.
  - intros tok tl -> -> Htok. rewrite decide_True by reflexivity.
    replace (0 <? Z.of_nat (String.length tok)) with true; [reflexivity|].
    symmetry. apply length_pos_iff, Htok.
  - intros Hne Hv1 Hv2. rewrite !decide_False by exact Hne.
    unfold signed_or_inline. rewrite Hv1, Hv2. split; reflexivity.
Qed.

End WithKeys.

Lemma scheme_is_not_checked_witness :
  ParseAuth no_keys (request_with "Bearer bDJtZXQ6YWJjMTIz")
    = ParseAuth no_keys (request_with "Basic bDJtZXQ6YWJjMTIz").
Proof.
  apply (scheme_is_not_checked no_keys _ _ [] [] "Bearer" "Basic" "bDJtZXQ6YWJjMTIz");
    reflexivity.
Defined.

Lemma hard_failures_witness :
  exists u p, ParseAuth no_keys (request_with "Basic")
              = Return u p (Some (errorString "Malformed header.")).
Proof.
  destruct (hard_failures no_keys (request_with "Basic")) as (_ & [_ H] & _).
  apply H. exists "Basic", []. split; reflexivity.
Defined.

Lemma foreign_byte_is_malformed_encoding_witness :
  ParseAuth no_keys (request_with "Basic bDJtZXQ6YWJjMTIz extra")
    = Return "" "" (Some (errorString "Malformed encoding.")).
Proof.
  apply (foreign_byte_is_malformed_encoding no_keys _ "Basic" "bDJtZXQ6YWJjMTIz extra" []);
    [reflexivity | reflexivity | right; reflexivity].
Defined.

Lemma later_fields_are_ignored_witness :
  ParseAuth no_keys (request_with "Basic WW05aU9uQjNNZz09Omlnbm9yZWQ=")
    = ParseAuth no_keys (request_with "Basic WW05aU9uQjNNZz09").
Proof.
  destruct (later_fields_are_ignored no_keys
              (request_with "Basic WW05aU9uQjNNZz09Omlnbm9yZWQ=")
              (request_with "Basic WW05aU9uQjNNZz09")
              "Basic WW05aU9uQjNNZz09Omlnbm9yZWQ=" "Basic WW05aU9uQjNNZz09" [] []
              "Basic" "Basic" "WW05aU9uQjNNZz09Omlnbm9yZWQ=" "WW05aU9uQjNNZz09"
              "Ym9iOnB3Mg==:ignored" "Ym9iOnB3Mg=="
              "Ym9iOnB3Mg==" ["ignored"] []) as [_ H];
    [reflexivity | reflexivity | reflexivity | reflexivity | reflexivity
    | reflexivity | reflexivity | reflexivity |].
  apply H; [discriminate | reflexivity | reflexivity].
Defined.

End UtilsMore.

(** ** [ParseAuth]: what a client sends and what it gets back *)

Module UtilsRoundTrip.

Import base64 utils StrFacts UtilsFacts Base64RoundTrip UtilsMore.

Lemma split_no_sep sep s : Str.has_char sep s = false -> Str.split sep s = [s].
Proof.
  induction s as [|a r IH]; [reflexivity|]. cbn [Str.has_char]. intros H.
  apply orb_false_iff in H. destruct H as [Ha Hr].
  rewrite split_String, Ha, (IH Hr). reflexivity.
Qed.

Lemma append_not_empty (s t : string) a : s +:+ String a t <> "".
Proof. destruct s; discriminate. Qed.

Section WithKeys.

Variable VerifyAndDecrypt : string -> option string.

(** X19. The inline scheme, end to end. A client that encodes
    [user:pass] in base64, puts the result in the user field of HTTP
    basic authentication (whatever the password field) and encodes that
    again, gets [user] back from [ParseAuth] without error when its
    payload is no valid token, and [pass] up to its first colon: a
    password that holds a colon is cut there. *)
Theorem inline_credentials_round_trip (r : Request) (more : list string)
    (scheme user pass secret : string) :
  Str.has_char " " scheme = false ->
  Str.has_char ":" user = false ->
  VerifyAndDecrypt (EncodeToString (user +:+ ":" +:+ pass) +:+ ":" +:+ secret) = None ->
  Header r !! "Authorization"
    = Some ((scheme +:+ " " +:+
             EncodeToString (EncodeToString (user +:+ ":" +:+ pass) +:+ ":" +:+ secret))
            :: more) ->
  ParseAuth VerifyAndDecrypt r = Return user (field 0 (Str.split ":" pass)) None /\
  (Str.has_char ":" pass = false ->
   ParseAuth VerifyAndDecrypt r = Return user pass None) /\
  (forall p q, Str.has_char ":" p = false -> pass = p +:+ ":" +:+ q ->
   ParseAuth VerifyAndDecrypt r = Return user p None).
Proof.
  intros Hs Hu Hv Hh.
  assert (Hmain : ParseAuth VerifyAndDecrypt r
                  = Return user (field 0 (Str.split ":" pass)) None).
  { unfold ParseAuth. rewrite Hh.
    change (" " +:+ ?x) with (String " " x).
    rewrite split2_prefix by exact Hs. rewrite DecodeString_EncodeToString.
    change (":" +:+ secret) with (String ":" secret) in *.
    rewrite split_prefix by apply EncodeToString_no_colon.
    rewrite decide_False by apply EncodeToString_not_sentinel.
    unfold signed_or_inline. rewrite Hv. rewrite inline_creds_resolved.
    rewrite decide_False.
    2:{ intros H. apply EncodeToString_empty in H.
        change (":" +:+ pass) with (String ":" pass) in H.
        exact (append_not_empty _ _ _ H). }
    cbv zeta. rewrite DecodeString_EncodeToString. cbn [fst snd].
    change (":" +:+ pass) with (String ":" pass).
    rewrite split_prefix by exact Hu.
    destruct (Str.split ":" pass) as [|f fs] eqn:Hp;
      [exfalso; exact (split_nonempty _ _ Hp)|]. reflexivity. }
  split; [exact Hmain|]. split.
  - intros Hp. rewrite Hmain, (split_no_sep ":" pass Hp). reflexivity.
  - intros p q Hp ->. rewrite Hmain. change (":" +:+ q) with (String ":" q).
    rewrite split_prefix by exact Hp. reflexivity.
Qed.

(** X20. The sentinel scheme, end to end: a client that sends
    [l2met:tok] in base64, for a token that is not empty and holds no
    colon, gets the pair [("l2met", tok)] from [ParseAuth] without error,
    whatever the keys of the process. *)
Theorem sentinel_credentials_round_trip (r : Request) (more : list string)
    (scheme tok : string) :
  Str.has_char " " scheme = false ->
  Str.has_char ":" tok = false ->
  tok <> "" ->
  Header r !! "Authorization"
    = Some ((scheme +:+ " " +:+ EncodeToString ("l2met:" +:+ tok)) :: more) ->
  ParseAuth VerifyAndDecrypt r = Return "l2met" tok None.
Proof.
  intros Hs Ht Hne Hh. unfold ParseAuth. rewrite Hh.
  change (" " +:+ ?x) with (String " " x).
  rewrite split2_prefix by exact Hs. rewrite DecodeString_EncodeToString.
  change ("l2met:" +:+ tok) with ("l2met" +:+ String ":" tok).
  rewrite split_prefix by reflexivity. rewrite (split_no_sep ":" tok Ht).
  rewrite decide_True by reflexivity.
  replace (0 <? Z.of_nat (String.length tok)) with true; [reflexivity|].
  symmetry. apply length_pos_iff, Hne.
Qed.

(** X21. The signed scheme: when the decoded payload is a token that
    verifies, and the sentinel scheme does not apply, [ParseAuth] returns
    the first two fields of the decrypted message without error and never
    decodes anything more; a message without colon makes it panic, since
    the second field is read without a check that it is there. *)
Theorem verified_token_needs_colon (r : Request) (h : string) (more : list string)
    (scheme cred up s : string) :
  Header r !! "Authorization" = Some (h :: more) ->
  Str.split2 " " h = [scheme; cred] ->
  DecodeString cred = (up, None) ->
  field 0 (Str.split ":" up) <> "l2met" ->
  VerifyAndDecrypt up = Some s ->
  (Str.has_char ":" s = true ->
   ParseAuth VerifyAndDecrypt r
     = Return (field 0 (Str.split ":" s)) (field 1 (Str.split ":" s)) None) /\
  (Str.has_char ":" s = false ->
   ParseAuth VerifyAndDecrypt r = Panic "index out of range").
Proof.
  intros Hh Hsp Hd Hne Hv.
  assert (Hmain : ParseAuth VerifyAndDecrypt r
                  = match Str.split ":" s with
                    | user :: pass :: _ => Return user pass None
                    | _ => Panic "index out of range"
                    end).
  { unfold ParseAuth. rewrite Hh, Hsp, Hd.
    destruct (Str.split ":" up) as [|part0 rest] eqn:Hp;
      [exfalso; exact (split_nonempty _ _ Hp)|].
    cbn in Hne. rewrite decide_False by exact Hne.
    unfold signed_or_inline. rewrite Hv. reflexivity. }
  split; intros Hc; rewrite Hmain.
  - destruct (split_has_char ":" s Hc) as (u & p & tl & ->). reflexivity.
  - rewrite (split_no_sep ":" s Hc). reflexivity.
Qed.

End WithKeys.

Lemma inline_credentials_round_trip_witness :
  ParseAuth no_keys (request_with "Basic WW05aU9uQjNNZz09Og==") = Return "bob" "pw2" None.
Proof.
  destruct (inline_credentials_round_trip no_keys
              (request_with "Basic WW05aU9uQjNNZz09Og==") [] "Basic" "bob" "pw2" "")
    as (_ & H & _); [reflexivity | reflexivity | reflexivity | reflexivity |].
  apply H. reflexivity.
Defined.

Lemma sentinel_credentials_round_trip_witness :
  ParseAuth no_keys (request_with "Basic bDJtZXQ6YWJjMTIz") = Return "l2met" "abc123" None.
Proof.
  apply (sentinel_credentials_round_trip no_keys _ [] "Basic" "abc123");
    [reflexivity | reflexivity | discriminate | reflexivity].
Defined.

Lemma verified_token_needs_colon_witness :
  ParseAuth (fun _ => Some "librato") (request_with "Basic dG9rZW4=")
    = Panic "index out of range".
Proof.
  destruct (verified_token_needs_colon (fun _ => Some "librato")
              (request_with "Basic dG9rZW4=") "Basic dG9rZW4=" []
              "Basic" "dG9rZW4=" "token" "librato") as [_ H];
    [reflexivity | reflexivity | reflexivity | discriminate | reflexivity |].
  apply H. reflexivity.
Defined.

End UtilsRoundTrip.
